(** * The xDS ACK wrapper of pkg/envoy/xds/ack.go

    A shallow embedding of [AckingResourceMutatorWrapper]: the wrapper's
    fields, the objects it talks to (completions, wait groups, callbacks,
    the metrics sink and the wrapped resource mutator) and its methods, as
    state-passing functions over one [State] record.  Every method of the
    source runs with [m.locker] held, so one method call is one atomic
    step on [State]. *)

From Stdlib Require Import NArith.
From stdpp Require Import base option list gmap strings fin_maps.

Local Open Scope N_scope.

#[local] Set Warnings "-clear-no-such-hyp".

(** ** Data model *)

(** [*completion.Completion], [*completion.WaitGroup] and [func(error)]
    values are compared by identity only; they are addresses here. *)
Definition Completion := positive.
Definition WaitGroup := positive.
Definition Callback := positive.

(** Go's [error] is an open interface: [ProxyError.Err] can hold any error.
    An error value is modelled by the text its [Error()] returns, the way
    [errors.New] makes one; ack.go never compares error values. *)
Inductive error := errors_New (text : string).

Definition error_Error (e : error) : string :=
  match e with errors_New text => text end.

(** [var ErrNackReceived = errors.New("NACK received")], the only error
    value ack.go itself builds. *)
Definition ErrNackReceived : error := errors_New "NACK received".

Record ProxyError := { Err : error; Detail : string }.

Definition ProxyError_Error (pe : ProxyError) : string :=
  error_Error (Err pe) +:+ ": " +:+ Detail pe.

(** A Go [error] handed to [Complete] or to a callback: [nil] or a
    [*ProxyError]. *)
Abbreviation goerror := (option ProxyError).

(** [pendingCompletion]: the inner map of [remainingNodesResources] may be
    the nil map ([None]), which [addVersionCompletion] stores. *)
Record pendingCompletion := {
  pc_version : N;
  pc_typeURL : string;
  pc_remainingNodesResources : gmap string (option (gset string))
}.

(** Modelled from the spec: pkg/completion is not part of the sources at
    hand.  A Completion is a single-assignment future owned by a wait
    group; [Err()] is non-nil once its context was canceled or timed out;
    it carries an optional callback that [Complete] invokes
    synchronously, the first time only. *)
Record CompletionObj := {
  c_wg : WaitGroup;
  c_callback : option Callback;
  c_canceled : bool;
  c_result : option goerror
}.

(** What the wrapper does to its collaborators, in program order: calls
    of a callback, of [Complete] and of the metrics sink
    ([m.metrics.IncreaseACK], [m.metrics.IncreaseNACK]). *)
Inductive Event :=
  | EvCallback (cb : Callback) (err : goerror)
  | EvComplete (c : Completion) (err : goerror)
  | EvIncreaseACK (typeURL : string)
  | EvIncreaseNACK (typeURL : string).

(** Outcome of a method that may reach [logging.Fatal].  Modelled from the
    spec: pkg/logging is not part of the sources at hand; [logging.Fatal]
    logs its message and aborts the process, so nothing after it runs and
    no state is left. *)
Inductive Result (A : Type) :=
  | Ok (a : A)
  | Fatal (msg : string).
Arguments Ok {A} a.
Arguments Fatal {A} msg.

Section Wrapper.

(** The wrapped [ResourceMutator] is an interface, declared outside the
    sources at hand: it is a parameter of everything below.  Its state is
    [Store] and a [proto.Message] is a [Resource]. *)
Context {Store Resource : Type}.

(** [ResourceMutatorRevertFunc]: returns the resulting version and a second
    value that the wrapper discards ([m.version, _ = revert()]). *)
Definition ResourceMutatorRevertFunc : Type := Store → (N * bool) * Store.

Class ResourceMutator := {
  mutUpsert : string → string → Resource → Store →
              (N * bool * option ResourceMutatorRevertFunc) * Store;
  mutDelete : string → string → Store →
              (N * bool * option ResourceMutatorRevertFunc) * Store
}.

Context `{!ResourceMutator}.

(** The fields of [AckingResourceMutatorWrapper] (logger and lock left
    out), the store behind [mutator], and the world outside the wrapper:
    the completion objects, the address the next allocation returns, and
    the calls made so far. *)
Record State := {
  mutator : Store;
  version : N;
  ackedVersions : gmap string N;
  pendingCompletions : gmap Completion pendingCompletion;
  restoring : bool;
  completions : gmap Completion CompletionObj;
  nextCompletion : Completion;
  trace : list Event
}.

Definition set_mutator (st : Store) (s : State) : State :=
  {| mutator := st; version := version s; ackedVersions := ackedVersions s;
     pendingCompletions := pendingCompletions s; restoring := restoring s;
     completions := completions s; nextCompletion := nextCompletion s;
     trace := trace s |}.

Definition set_version (v : N) (s : State) : State :=
  {| mutator := mutator s; version := v; ackedVersions := ackedVersions s;
     pendingCompletions := pendingCompletions s; restoring := restoring s;
     completions := completions s; nextCompletion := nextCompletion s;
     trace := trace s |}.

Definition set_ackedVersions (a : gmap string N) (s : State) : State :=
  {| mutator := mutator s; version := version s; ackedVersions := a;
     pendingCompletions := pendingCompletions s; restoring := restoring s;
     completions := completions s; nextCompletion := nextCompletion s;
     trace := trace s |}.

Definition set_pendingCompletions (p : gmap Completion pendingCompletion)
    (s : State) : State :=
  {| mutator := mutator s; version := version s; ackedVersions := ackedVersions s;
     pendingCompletions := p; restoring := restoring s;
     completions := completions s; nextCompletion := nextCompletion s;
     trace := trace s |}.

Definition set_restoring (b : bool) (s : State) : State :=
  {| mutator := mutator s; version := version s; ackedVersions := ackedVersions s;
     pendingCompletions := pendingCompletions s; restoring := b;
     completions := completions s; nextCompletion := nextCompletion s;
     trace := trace s |}.

Definition set_completions (h : gmap Completion CompletionObj) (s : State) : State :=
  {| mutator := mutator s; version := version s; ackedVersions := ackedVersions s;
     pendingCompletions := pendingCompletions s; restoring := restoring s;
     completions := h; nextCompletion := nextCompletion s;
     trace := trace s |}.

Definition set_nextCompletion (c : Completion) (s : State) : State :=
  {| mutator := mutator s; version := version s; ackedVersions := ackedVersions s;
     pendingCompletions := pendingCompletions s; restoring := restoring s;
     completions := completions s; nextCompletion := c;
     trace := trace s |}.

Definition emit (e : Event) (s : State) : State :=
  {| mutator := mutator s; version := version s; ackedVersions := ackedVersions s;
     pendingCompletions := pendingCompletions s; restoring := restoring s;
     completions := completions s; nextCompletion := nextCompletion s;
     trace := trace s ++ [e] |}.

(** ** The collaborators *)

(** [callback(err)] for a possibly nil callback that the source has
    checked to be non-nil. *)
Definition call (callback : Callback) (err : goerror) (s : State) : State :=
  emit (EvCallback callback err) s.

(** Modelled from the spec: [wg.AddCompletionWithCallback(callback)] makes a
    new, pending, uncanceled Completion in the wait group and returns it. *)
Definition AddCompletionWithCallback (wg : WaitGroup) (callback : option Callback)
    (s : State) : Completion * State :=
  let c := nextCompletion s in
  let obj := {| c_wg := wg; c_callback := callback;
                c_canceled := false; c_result := None |} in
  (c, set_nextCompletion (Pos.succ c) (set_completions (<[c := obj]> (completions s)) s)).

(** Modelled from the spec: [comp.Err() != nil], true once the context
    behind the Completion was canceled or timed out. *)
Definition Completion_Err (comp : Completion) (s : State) : bool :=
  match completions s !! comp with
  | Some obj => c_canceled obj
  | None => false
  end.

(** Modelled from the spec: [comp.Complete(err)] assigns the outcome once
    and runs the callback, if there is one, at that time. *)
Definition Completion_Complete (comp : Completion) (err : goerror) (s : State) : State :=
  let s := emit (EvComplete comp err) s in
  match completions s !! comp with
  | Some obj =>
      match c_result obj with
      | Some _ => s
      | None =>
          let obj' := {| c_wg := c_wg obj; c_callback := c_callback obj;
                         c_canceled := c_canceled obj; c_result := Some err |} in
          let s := set_completions (<[comp := obj']> (completions s)) s in
          match c_callback obj with
          | Some cb => call cb err s
          | None => s
          end
      end
  | None => s
  end.

(** Modelled from the spec: the context behind a Completion is canceled
    or times out outside the wrapper; from then on [Err()] is non-nil. *)
Definition cancel (comp : Completion) (s : State) : State :=
  match completions s !! comp with
  | Some obj =>
      let obj' := {| c_wg := c_wg obj; c_callback := c_callback obj;
                     c_canceled := true; c_result := c_result obj |} in
      set_completions (<[comp := obj']> (completions s)) s
  | None => s
  end.

(** ** The methods of the wrapper *)

Definition MarkRestorePending (s : State) : State := set_restoring true s.

Definition MarkRestoreCompleted (s : State) : State := set_restoring false s.

Definition addVersionCompletion (typeURL : string) (version : N)
    (nodeIDs : list string) (c : Completion) (s : State) : State :=
  let comp := {| pc_version := version;
                 pc_typeURL := typeURL;
                 pc_remainingNodesResources :=
                   foldl (λ r nodeID, <[nodeID := None]> r) ∅ nodeIDs |} in
  set_pendingCompletions (<[c := comp]> (pendingCompletions s)) s.

Fixpoint currentVersionAcked_from (acked : gmap string N) (version : N)
    (nodeIDs : list string) : bool :=
  match nodeIDs with
  | [] => true
  | node :: rest =>
      match acked !! node with
      | None => false
      | Some a => if a <? version then false
                  else currentVersionAcked_from acked version rest
      end
  end.

Definition currentVersionAcked (nodeIDs : list string) (s : State) : bool :=
  currentVersionAcked_from (ackedVersions s) (version s) nodeIDs.

Definition useCurrent (typeURL : string) (nodeIDs : list string) (wg : WaitGroup)
    (callback : option Callback) (s : State) : State :=
  if negb (currentVersionAcked nodeIDs s) then
    let v := version s in
    let '(c, s) := AddCompletionWithCallback wg callback s in
    addVersionCompletion typeURL v nodeIDs c s
  else s.

Definition UseCurrent (typeURL : string) (nodeIDs : list string)
    (wg : option WaitGroup) (s : State) : State :=
  let wait := bool_decide (is_Some wg) in
  let wait := if restoring s then false else wait in
  match wg with
  | Some g => if wait then useCurrent typeURL nodeIDs g None s else s
  | None => s
  end.

Definition DeleteNode (nodeID : string) (s : State) : State :=
  set_ackedVersions (delete nodeID (ackedVersions s)) s.

(** [AckingResourceMutatorRevertFunc]: [None] is a nil completion. *)
Definition AckingResourceMutatorRevertFunc : Type := option Completion → State → State.

(** The closure [func(completion *completion.Completion) {}]. *)
Definition revertNothing : AckingResourceMutatorRevertFunc := λ _ s, s.

(** The closure returned after a change, by Upsert and by Delete alike; it
    captures [revert], [typeURL] and [nodeIDs]. *)
Definition revertChange (revert : option ResourceMutatorRevertFunc)
    (typeURL : string) (nodeIDs : list string) : AckingResourceMutatorRevertFunc :=
  λ completion s,
    match revert with
    | Some rv =>
        let '((v, _), st) := rv (mutator s) in
        let s := set_version v (set_mutator st s) in
        match completion with
        | Some c => addVersionCompletion typeURL (version s) nodeIDs c s
        | None => s
        end
    | None => s
    end.

Definition Upsert (typeURL resourceName : string) (resource : Resource)
    (nodeIDs : list string) (wg : option WaitGroup) (callback : option Callback)
    (s : State) : Result (AckingResourceMutatorRevertFunc * State) :=
  let wait := bool_decide (is_Some wg) in
  let wait := if restoring s then false else wait in
  let '((v, updated, revert), st) := mutUpsert typeURL resourceName resource (mutator s) in
  let s := set_version v (set_mutator st s) in
  if negb updated then
    let s := match wg, wait, callback with
             | Some g, true, _ => useCurrent typeURL nodeIDs g callback s
             | _, _, Some cb => call cb None s
             | _, _, None => s
             end in
    Ok (revertNothing, s)
  else
    match wg, wait with
    | Some g, true =>
        let '(c, s) := AddCompletionWithCallback g callback s in
        if bool_decide (is_Some (pendingCompletions s !! c)) then
          Fatal "attempt to reuse completion to upsert xDS resource"
        else
          let comp := {| pc_version := version s;
                         pc_typeURL := typeURL;
                         pc_remainingNodesResources :=
                           foldl (λ r nodeID, <[nodeID := Some {[resourceName]}]> r)
                                 ∅ nodeIDs |} in
          Ok (revertChange revert typeURL nodeIDs,
              set_pendingCompletions (<[c := comp]> (pendingCompletions s)) s)
    | _, _ =>
        let s := match callback with
                 | Some cb => call cb None s
                 | None => s
                 end in
        Ok (revertChange revert typeURL nodeIDs, s)
    end.

Definition Delete (typeURL resourceName : string)
    (nodeIDs : list string) (wg : option WaitGroup) (callback : option Callback)
    (s : State) : Result (AckingResourceMutatorRevertFunc * State) :=
  let wait := bool_decide (is_Some wg) in
  let wait := if restoring s then false else wait in
  let '((v, updated, revert), st) := mutDelete typeURL resourceName (mutator s) in
  let s := set_version v (set_mutator st s) in
  if negb updated then
    let s := match wg, wait, callback with
             | Some g, true, _ => useCurrent typeURL nodeIDs g callback s
             | _, _, Some cb => call cb None s
             | _, _, None => s
             end in
    Ok (revertNothing, s)
  else
    match wg, wait with
    | Some g, true =>
        let '(c, s) := AddCompletionWithCallback g callback s in
        if bool_decide (is_Some (pendingCompletions s !! c)) then
          Fatal "attempt to reuse completion to delete xDS resource"
        else
          Ok (revertChange revert typeURL nodeIDs,
              addVersionCompletion typeURL (version s) nodeIDs c s)
    | _, _ =>
        let s := match callback with
                 | Some cb => call cb None s
                 | None => s
                 end in
        Ok (revertChange revert typeURL nodeIDs, s)
    end.

(** [delete(remainingResourceNames, name)] for every acked name; deleting
    from the nil map does nothing. *)
Definition deleteNames (remainingResourceNames : option (gset string))
    (resourceNames : list string) : option (gset string) :=
  foldl (λ r name, match r with
                   | Some names => Some (names ∖ {[name]})
                   | None => None
                   end) remainingResourceNames resourceNames.

(** [len(remainingResourceNames)]; the nil map has length 0. *)
Definition lenNames (remainingResourceNames : option (gset string)) : nat :=
  match remainingResourceNames with
  | Some names => size names
  | None => 0%nat
  end.

(** The part of the loop body of HandleResourceVersionAck that works on one
    uncanceled [pending]: the [pending] as the body leaves it (it is
    updated in place) and, when the body reaches [comp.Complete(err)] and
    [continue], that [err]. *)
Definition ackPending (ackVersion nackVersion : N) (nodeIP : string)
    (resourceNames : list string) (typeURL detail : string)
    (pending : pendingCompletion) : pendingCompletion * option goerror :=
  if bool_decide (pc_typeURL pending = typeURL) then
    if pc_version pending <=? nackVersion then
      match pc_remainingNodesResources pending !! nodeIP with
      | Some remainingResourceNames =>
          let remainingResourceNames := deleteNames remainingResourceNames resourceNames in
          let nodes :=
            if bool_decide (lenNames remainingResourceNames = 0%nat)
            then delete nodeIP (pc_remainingNodesResources pending)
            else <[nodeIP := remainingResourceNames]> (pc_remainingNodesResources pending) in
          let pending := {| pc_version := pc_version pending;
                            pc_typeURL := pc_typeURL pending;
                            pc_remainingNodesResources := nodes |} in
          if bool_decide (size nodes = 0%nat) then
            if pc_version pending <=? ackVersion
            then (pending, Some None)
            else (pending, Some (Some {| Err := ErrNackReceived; Detail := detail |}))
          else (pending, None)
      | None => (pending, None)
      end
    else (pending, None)
  else (pending, None).

(** One iteration of [for comp, pending := range m.pendingCompletions]. *)
Definition ackLoopBody (ackVersion nackVersion : N) (nodeIP : string)
    (resourceNames : list string) (typeURL detail : string)
    (acc : gmap Completion pendingCompletion * State)
    (entry : Completion * pendingCompletion)
    : gmap Completion pendingCompletion * State :=
  let '(remainingCompletions, s) := acc in
  let '(comp, pending) := entry in
  if Completion_Err comp s then (remainingCompletions, s)
  else
    match ackPending ackVersion nackVersion nodeIP resourceNames typeURL detail pending with
    | (_, Some None) =>
        (remainingCompletions,
         Completion_Complete comp None (emit (EvIncreaseACK typeURL) s))
    | (_, Some (Some pe)) =>
        (remainingCompletions,
         Completion_Complete comp (Some pe) (emit (EvIncreaseNACK typeURL) s))
    | (pending, None) => (<[comp := pending]> remainingCompletions, s)
    end.

(** Go ranges over a map in an unspecified order; the entries are taken
    here in the order of [map_to_list].  The iterations touch disjoint
    completions, so only the order of the events of one call depends on
    it. *)
Definition HandleResourceVersionAck (ackVersion nackVersion : N) (nodeIP : string)
    (resourceNames : list string) (typeURL detail : string) (s : State) : State :=
  let s := match ackedVersions s !! nodeIP with
           | Some previouslyAckedVersion =>
               if previouslyAckedVersion <? ackVersion
               then set_ackedVersions (<[nodeIP := ackVersion]> (ackedVersions s)) s
               else s
           | None => set_ackedVersions (<[nodeIP := ackVersion]> (ackedVersions s)) s
           end in
  let '(remainingCompletions, s) :=
    foldl (ackLoopBody ackVersion nackVersion nodeIP resourceNames typeURL detail)
          (∅, s) (map_to_list (pendingCompletions s)) in
  set_pendingCompletions remainingCompletions s.

(** ** Sequences of acknowledgements *)

(** One inbound message, the arguments of HandleResourceVersionAck. *)
Record AckMsg := {
  msg_ackVersion : N;
  msg_nackVersion : N;
  msg_nodeIP : string;
  msg_resourceNames : list string;
  msg_typeURL : string;
  msg_detail : string
}.

Definition handle (s : State) (a : AckMsg) : State :=
  HandleResourceVersionAck (msg_ackVersion a) (msg_nackVersion a) (msg_nodeIP a)
    (msg_resourceNames a) (msg_typeURL a) (msg_detail a) s.

Definition handleAll (s : State) (msgs : list AckMsg) : State := foldl handle s msgs.

(** ** Reverting a list of updates *)

(** Modelled from the spec: [wg.AddCompletion()] is
    [AddCompletionWithCallback] without a callback. *)
Definition AddCompletion (wg : WaitGroup) (s : State) : Completion * State :=
  AddCompletionWithCallback wg None s.

(** One iteration of the loop of [AckingResourceMutatorRevertFuncList.Revert]:
    [rl[i](c)] with [c] a new completion of [wg], or nil when [wg] is nil. *)
Definition revertOne (wg : option WaitGroup) (s : State)
    (f : AckingResourceMutatorRevertFunc) : State :=
  match wg with
  | Some g => let '(c, s) := AddCompletion g s in f (Some c) s
  | None => f None s
  end.

(** [rl.Revert(wg)]: the index runs from [len(rl) - 1] down to 0. *)
Definition Revert (rl : list AckingResourceMutatorRevertFunc)
    (wg : option WaitGroup) (s : State) : State :=
  foldl (revertOne wg) s (rev rl).

End Wrapper.

Arguments State : clear implicits.
Arguments ResourceMutator : clear implicits.
Arguments ResourceMutatorRevertFunc : clear implicits.
Arguments AckingResourceMutatorRevertFunc : clear implicits.

(** ** A resource store to run the wrapper on *)

(** Modelled from the spec: the Versioned Resource Store (section 4.1) is
    not part of the sources at hand.  Resources are keyed by type and name,
    every change bumps the one version counter (a uint64), an unchanged
    Upsert and a Delete of nothing report no change, and the revert
    function puts the prior value back under a fresh version. *)
Record Cache := {
  cache_resources : gmap (string * string) string;
  cache_version : N
}.

(** Modelled from the spec: the version counter is a uint64 and goes up by
    one on every change. *)
Definition bumpVersion (v : N) : N := (v + 1) mod 2 ^ 64.

(** Modelled from the spec: the revert function restores the prior value,
    or removes the resource if there was none, and returns the resulting
    version. *)
Definition cacheRestore (key : string * string) (prior : option string)
    : ResourceMutatorRevertFunc Cache :=
  λ st,
    let st' := {| cache_resources :=
                    match prior with
                    | Some r => <[key := r]> (cache_resources st)
                    | None => delete key (cache_resources st)
                    end;
                  cache_version := bumpVersion (cache_version st) |} in
    ((cache_version st', true), st').

(** Modelled from the spec: Upsert reports no change, and keeps the
    version, when the stored resource is the same. *)
Definition cacheUpsert (typeURL resourceName resource : string) (st : Cache)
    : (N * bool * option (ResourceMutatorRevertFunc Cache)) * Cache :=
  let prior := cache_resources st !! (typeURL, resourceName) in
  if bool_decide (prior = Some resource) then
    ((cache_version st, false, None), st)
  else
    let st' := {| cache_resources := <[(typeURL, resourceName) := resource]> (cache_resources st);
                  cache_version := bumpVersion (cache_version st) |} in
    ((cache_version st', true, Some (cacheRestore (typeURL, resourceName) prior)), st').

(** Modelled from the spec: Delete reports no change when the resource
    does not exist. *)
Definition cacheDelete (typeURL resourceName : string) (st : Cache)
    : (N * bool * option (ResourceMutatorRevertFunc Cache)) * Cache :=
  let prior := cache_resources st !! (typeURL, resourceName) in
  match prior with
  | None => ((cache_version st, false, None), st)
  | Some _ =>
      let st' := {| cache_resources := delete (typeURL, resourceName) (cache_resources st);
                    cache_version := bumpVersion (cache_version st) |} in
      ((cache_version st', true, Some (cacheRestore (typeURL, resourceName) prior)), st')
  end.

#[export] Instance cacheMutator : ResourceMutator Cache string :=
  {| mutUpsert := cacheUpsert; mutDelete := cacheDelete |}.

(** [NewAckingResourceMutatorWrapper] around a cache, in a world without
    completions. *)
Definition NewAckingResourceMutatorWrapper (st : Cache) : State Cache :=
  {| mutator := st; version := 0; ackedVersions := ∅; pendingCompletions := ∅;
     restoring := false; completions := ∅; nextCompletion := 1%positive;
     trace := [] |}.

(** ** The scenario of the specification *)

(** A cache at version 4, so that the first change yields version 5. *)
Definition demoCache : Cache := {| cache_resources := ∅; cache_version := 4 |}.

Definition demo0 : State Cache := NewAckingResourceMutatorWrapper demoCache.

Definition stateOf {A} (r : Result (A * State Cache)) : State Cache :=
  match r with
  | Ok (_, s) => s
  | Fatal _ => demo0
  end.

Definition revertOf (r : Result (AckingResourceMutatorRevertFunc Cache * State Cache))
    : AckingResourceMutatorRevertFunc Cache :=
  match r with
  | Ok (rv, _) => rv
  | Fatal _ => revertNothing
  end.

Definition demoNodes : list string := ["10.0.0.1"; "10.0.0.2"].

Definition demoWG : WaitGroup := 1%positive.
Definition demoCallback : Callback := 7%positive.

(** [Upsert("cluster", "bar/foo", X, nodes, wg, cb)]: version 5, changed. *)
Definition demoUpsert : Result (AckingResourceMutatorRevertFunc Cache * State Cache) :=
  Upsert "cluster" "bar/foo" "X" demoNodes (Some demoWG) (Some demoCallback) demo0.

Definition demo1 : State Cache := stateOf demoUpsert.

Definition demoAck (nodeIP : string) : AckMsg :=
  {| msg_ackVersion := 5; msg_nackVersion := 5; msg_nodeIP := nodeIP;
     msg_resourceNames := ["bar/foo"]; msg_typeURL := "cluster"; msg_detail := EmptyString |}.

(** The node attempted version 5 and failed: it stays at version 4. *)
Definition demoNack (nodeIP : string) : AckMsg :=
  {| msg_ackVersion := 4; msg_nackVersion := 5; msg_nodeIP := nodeIP;
     msg_resourceNames := ["bar/foo"]; msg_typeURL := "cluster";
     msg_detail := "bad listener" |}.

(** An acknowledgement for another type URL. *)
Definition demoOtherAck : AckMsg :=
  {| msg_ackVersion := 5; msg_nackVersion := 5; msg_nodeIP := "10.0.0.1";
     msg_resourceNames := []; msg_typeURL := "listener"; msg_detail := EmptyString |}.

(** After the first node has acknowledged. *)
Definition demo2 : State Cache := handle demo1 (demoAck "10.0.0.1").

Definition demoPending2 : pendingCompletion :=
  {| pc_version := 5; pc_typeURL := "cluster";
     pc_remainingNodesResources := {["10.0.0.2" := Some {["bar/foo"]}]} |}.

(** The context of the completion is canceled right after the Upsert. *)
Definition demoCanceled : State Cache := cancel 1%positive demo1.

Definition demoPending1 : pendingCompletion :=
  {| pc_version := 5; pc_typeURL := "cluster";
     pc_remainingNodesResources :=
       {["10.0.0.1" := Some {["bar/foo"]}; "10.0.0.2" := Some {["bar/foo"]}]} |}.

(** The same Upsert while restoring. *)
Definition demoRestoring : State Cache := MarkRestorePending demo0.

(** A state in which the WaitGroup hands out a completion that is pending
    already. *)
Definition demoReuse : State Cache :=
  set_nextCompletion 1%positive demo1.

(** The same Upsert for no node at all. *)
Definition demoUpsertNoNodes : Result (AckingResourceMutatorRevertFunc Cache * State Cache) :=
  Upsert "cluster" "bar/foo" "X" [] (Some demoWG) (Some demoCallback) demo0.

(** The same Upsert a second time: no change. *)
Definition demoUpsertAgain : Result (AckingResourceMutatorRevertFunc Cache * State Cache) :=
  Upsert "cluster" "bar/foo" "X" demoNodes (Some demoWG) (Some demoCallback) demo1.

(** Both nodes have acknowledged version 5. *)
Definition demo3 : State Cache := handle demo2 (demoAck "10.0.0.2").

(** A version-4 acknowledgement, arriving late. *)
Definition demoOldAck (nodeIP : string) : AckMsg :=
  {| msg_ackVersion := 4; msg_nackVersion := 4; msg_nodeIP := nodeIP;
     msg_resourceNames := ["bar/foo"]; msg_typeURL := "cluster";
     msg_detail := EmptyString |}.

(** The Upsert of the scenario, repeated once every node has acknowledged. *)
Definition demoUpsertAcked : Result (AckingResourceMutatorRevertFunc Cache * State Cache) :=
  Upsert "cluster" "bar/foo" "X" demoNodes (Some demoWG) (Some demoCallback) demo3.

(** A new wrapper around a cache that holds one resource at version 5, and
    that resource deleted, waiting for two nodes. *)
Definition demoFull : State Cache :=
  NewAckingResourceMutatorWrapper
    {| cache_resources := {[("t", "r") := "X"]}; cache_version := 5 |}.

Definition demoDelete : Result (AckingResourceMutatorRevertFunc Cache * State Cache) :=
  Delete "t" "r" ["n1"; "n2"] (Some demoWG) (Some demoCallback) demoFull.

(** A node reports version 2 to a new wrapper whose store is at version 4. *)
Definition demoEarlyAck : AckMsg :=
  {| msg_ackVersion := 2; msg_nackVersion := 2; msg_nodeIP := "10.0.0.1";
     msg_resourceNames := []; msg_typeURL := "cluster"; msg_detail := EmptyString |}.

Definition demoEarly : State Cache := handle demo0 demoEarlyAck.

(** * Observations used to state the properties *)

Section Observations.

Context {Store Resource : Type} `{!ResourceMutator Store Resource}.

Implicit Types (s : State Store) (c comp : Completion) (p pending : pendingCompletion).
Implicit Types (h : gmap Completion CompletionObj) (o : option CompletionObj).

(** The fields of the wrapper proper, which the collaborators never write. *)
Definition sameWrapper s s' : Prop :=
  mutator s' = mutator s ∧ version s' = version s ∧
  ackedVersions s' = ackedVersions s ∧
  pendingCompletions s' = pendingCompletions s ∧
  restoring s' = restoring s ∧ nextCompletion s' = nextCompletion s.

(** ** Completions *)

Definition canceledObj o : bool :=
  match o with Some obj => c_canceled obj | None => false end.

Definition completeObj (err : goerror) (obj : CompletionObj) : CompletionObj :=
  match c_result obj with
  | Some _ => obj
  | None => {| c_wg := c_wg obj; c_callback := c_callback obj;
               c_canceled := c_canceled obj; c_result := Some err |}
  end.

(** The events of one [comp.Complete(err)], given the object behind [comp]. *)
Definition completionEvents o comp (err : goerror) : list Event :=
  EvComplete comp err ::
  match o with
  | Some obj =>
      match c_result obj, c_callback obj with
      | None, Some cb => [EvCallback cb err]
      | _, _ => []
      end
  | None => []
  end.

(** The events a call added to the trace. *)
Definition eventsSince s s' : list Event := drop (length (trace s)) (trace s').

(** ** One entry of the loop of HandleResourceVersionAck *)

Section Entry.

Variables (ackVersion nackVersion : N) (nodeIP : string)
  (resourceNames : list string) (typeURL detail : string).

Local Abbreviation ackP :=
  (ackPending ackVersion nackVersion nodeIP resourceNames typeURL detail).

(** What an iteration stores in [remainingCompletions], if anything. *)
Definition entryKeep o pending : option pendingCompletion :=
  if canceledObj o then None
  else match ackP pending with
       | (p', None) => Some p'
       | (_, Some _) => None
       end.

(** The error an iteration completes its completion with, if it does. *)
Definition entryOutcome o pending : option goerror :=
  if canceledObj o then None else (ackP pending).2.

Definition metricEvent (err : goerror) : Event :=
  match err with
  | None => EvIncreaseACK typeURL
  | Some _ => EvIncreaseNACK typeURL
  end.

Definition entryEvents o comp pending : list Event :=
  match entryOutcome o pending with
  | Some e => metricEvent e :: completionEvents o comp e
  | None => []
  end.

End Entry.

(** [resourceNames] names every resource still awaited from a node; the
    nil map awaits none by name. *)
Definition acksAll (remainingResourceNames : option (gset string))
    (resourceNames : list string) : Prop :=
  match remainingResourceNames with
  | Some names => ∀ name, name ∈ names → name ∈ resourceNames
  | None => True
  end.

(** The error the loop completes a completion of version [v] with. *)
Definition ackOrNack (v ackVersion : N) (detail : string) : goerror :=
  if v <=? ackVersion then None
  else Some {| Err := ErrNackReceived; Detail := detail |}.

(** A message counts towards a pending completion of version [v] and type
    [typeURL] when its type URL is that one and its nackVersion reaches
    [v]; for a completion that awaits the resource [name] it must also
    list that name. *)
Definition covers (v : N) (typeURL : string) (name : option string)
    (a : AckMsg) : bool :=
  bool_decide (msg_typeURL a = typeURL) && (v <=? msg_nackVersion a) &&
  match name with
  | Some r => bool_decide (r ∈ msg_resourceNames a)
  | None => true
  end.

(** The nodes that sent a message that counts. *)
Fixpoint coveredNodes (v : N) (typeURL : string) (name : option string)
    (msgs : list AckMsg) : gset string :=
  match msgs with
  | [] => ∅
  | a :: msgs =>
      (if covers v typeURL name a then {[msg_nodeIP a]} else ∅)
      ∪ coveredNodes v typeURL name msgs
  end.

(** [a] is the message of [msgs] that counts for the one node of [nodes]
    which no earlier message had covered. *)
Definition resolvedWith (v : N) (typeURL : string) (name : option string)
    (nodes : gset string) (msgs : list AckMsg) (a : AckMsg) : Prop :=
  ∃ pre post, msgs = pre ++ a :: post ∧
    nodes ∖ coveredNodes v typeURL name pre = {[msg_nodeIP a]} ∧
    covers v typeURL name a = true.

(** Full coverage in the words of the specification: every node has sent
    a message for [typeURL] with an ackVersion of at least [v] that lists
    [name]. *)
Definition everyNodeAcked (v : N) (typeURL name : string) (nodeIDs : list string)
    (msgs : list AckMsg) : Prop :=
  ∀ n, n ∈ nodeIDs →
    ∃ a, a ∈ msgs ∧ msg_nodeIP a = n ∧ msg_typeURL a = typeURL ∧
         v ≤ msg_ackVersion a ∧ name ∈ msg_resourceNames a.

(** What Upsert ([Some name]) and addVersionCompletion ([None]) store per
    node. *)
Definition awaited (name : option string) : option (gset string) :=
  match name with
  | Some r => Some {[r]}
  | None => None
  end.

(** [e] is a call of [Complete] on the completion [c]. *)
Definition isCompleteOf (c : Completion) (e : Event) : bool :=
  match e with
  | EvComplete c' _ => bool_decide (c' = c)
  | _ => false
  end.

(** How often [Complete] was called on [c] in a list of events. *)
Fixpoint countCompletes (c : Completion) (evs : list Event) : nat :=
  match evs with
  | [] => 0
  | e :: evs => (if isCompleteOf c e then 1 else 0) + countCompletes c evs
  end.

(** The outcome a completion object holds: [None] while pending. *)
Definition outcome (c : Completion) s : option (option goerror) :=
  c_result <$> completions s !! c.

End Observations.

(** * Properties *)

Section Proofs.

Context {Store Resource : Type} `{!ResourceMutator Store Resource}.

Implicit Types (s : State Store) (c comp : Completion) (p pending : pendingCompletion).
Implicit Types (h : gmap Completion CompletionObj) (o : option CompletionObj).

(** ** What one call leaves alone *)

Lemma sameWrapper_refl s : sameWrapper s s.
Proof. by repeat split. Qed.

Lemma sameWrapper_trans s1 s2 s3 :
  sameWrapper s1 s2 → sameWrapper s2 s3 → sameWrapper s1 s3.
Proof.
  unfold sameWrapper. intros (?&?&?&?&?&?) (?&?&?&?&?&?).
  repeat split; congruence.
Qed.

Lemma Completion_Err_lookup comp s :
  Completion_Err comp s = canceledObj (completions s !! comp).
Proof. reflexivity. Qed.

Lemma Completion_Complete_frame comp err s :
  sameWrapper s (Completion_Complete comp err s).
Proof.
  unfold Completion_Complete, call. cbn.
  destruct (completions s !! comp) as [obj|]; [|by repeat split].
  destruct (c_result obj); [by repeat split|].
  destruct (c_callback obj); by repeat split.
Qed.

Lemma Completion_Complete_completions comp err s c :
  completions (Completion_Complete comp err s) !! c =
  if decide (c = comp) then completeObj err <$> completions s !! c
  else completions s !! c.
Proof.
  unfold Completion_Complete, call. cbn.
  destruct (completions s !! comp) as [obj|] eqn:Hobj.
  - unfold completeObj. destruct (c_result obj) eqn:Hres.
    + cbn. case_decide; subst; [|done]. rewrite Hobj. cbn. by rewrite Hres.
    + destruct (c_callback obj) eqn:Hcb; cbn; case_decide; subst.
      all: try (rewrite lookup_insert_eq, Hobj; cbn; by rewrite Hres, ?Hcb).
      all: by rewrite lookup_insert_ne.
  - cbn. case_decide; subst; [|done]. by rewrite Hobj.
Qed.

Lemma Completion_Complete_trace comp err s :
  trace (Completion_Complete comp err s) =
  trace s ++ completionEvents (completions s !! comp) comp err.
Proof.
  unfold Completion_Complete, call, completionEvents. cbn.
  destruct (completions s !! comp) as [obj|]; [|done].
  destruct (c_result obj); [done|].
  destruct (c_callback obj); cbn; [|done].
  by rewrite <- app_assoc.
Qed.

Lemma canceledObj_completeObj err o :
  canceledObj (completeObj err <$> o) = canceledObj o.
Proof.
  destruct o as [obj|]; [|done]. cbn. unfold completeObj.
  by destruct (c_result obj).
Qed.

(** ** The loop of HandleResourceVersionAck, entry by entry *)

Section AckLoop.

Variables (ackVersion nackVersion : N) (nodeIP : string)
  (resourceNames : list string) (typeURL detail : string).

Local Abbreviation ackP :=
  (ackPending ackVersion nackVersion nodeIP resourceNames typeURL detail).
Local Abbreviation body :=
  (ackLoopBody ackVersion nackVersion nodeIP resourceNames typeURL detail).
Local Abbreviation entryKeep :=
  (entryKeep ackVersion nackVersion nodeIP resourceNames typeURL detail).
Local Abbreviation entryOutcome :=
  (entryOutcome ackVersion nackVersion nodeIP resourceNames typeURL detail).
Local Abbreviation entryEvents :=
  (entryEvents ackVersion nackVersion nodeIP resourceNames typeURL detail).

Lemma ackLoopBody_spec rem s comp pending rem1 s1 :
  body (rem, s) (comp, pending) = (rem1, s1) →
  sameWrapper s s1 ∧
  rem1 = match entryKeep (completions s !! comp) pending with
         | Some p' => <[comp := p']> rem
         | None => rem
         end ∧
  (∀ c, completions s1 !! c =
        if decide (c = comp) then
          match entryOutcome (completions s !! comp) pending with
          | Some e => completeObj e <$> completions s !! c
          | None => completions s !! c
          end
        else completions s !! c) ∧
  trace s1 = trace s ++ entryEvents (completions s !! comp) comp pending.
Proof.
  unfold ackLoopBody, entryEvents, entryKeep, entryOutcome.
  rewrite Completion_Err_lookup.
  destruct (canceledObj (completions s !! comp)).
  { intros [= <- <-]. split; [apply sameWrapper_refl|].
    split; [done|]. split; [intros; by case_decide|]. by rewrite app_nil_r. }
  destruct ackP as [p' [[pe|]|]]; cbn; intros [= <- <-].
  - split; [eapply sameWrapper_trans; [|apply Completion_Complete_frame];
            by repeat split|].
    split; [done|]. split.
    + intros c. rewrite Completion_Complete_completions. by case_decide.
    + rewrite Completion_Complete_trace. cbn. by rewrite <- app_assoc.
  - split; [eapply sameWrapper_trans; [|apply Completion_Complete_frame];
            by repeat split|].
    split; [done|]. split.
    + intros c. rewrite Completion_Complete_completions. by case_decide.
    + rewrite Completion_Complete_trace. cbn. by rewrite <- app_assoc.
  - split; [apply sameWrapper_refl|]. split; [done|].
    split; [intros; by case_decide|]. by rewrite app_nil_r.
Qed.

Lemma ackLoop_spec (l : list (Completion * pendingCompletion)) :
  NoDup l.*1 → ∀ rem s rem' s',
  foldl body (rem, s) l = (rem', s') →
  sameWrapper s s' ∧
  (∀ c, rem' !! c =
        match (list_to_map l : gmap Completion pendingCompletion) !! c with
        | Some p => match entryKeep (completions s !! c) p with
                    | Some p' => Some p'
                    | None => rem !! c
                    end
        | None => rem !! c
        end) ∧
  (∀ c, completions s' !! c =
        match (list_to_map l : gmap Completion pendingCompletion) !! c with
        | Some p => match entryOutcome (completions s !! c) p with
                    | Some e => completeObj e <$> completions s !! c
                    | None => completions s !! c
                    end
        | None => completions s !! c
        end) ∧
  trace s' = trace s ++ flat_map (λ e, entryEvents (completions s !! e.1) e.1 e.2) l.
Proof.
  induction l as [|[c0 p0] l IH]; intros Hnd rem s rem' s'.
  { cbn. intros [= <- <-]. split; [apply sameWrapper_refl|].
    split; [intros; by rewrite lookup_empty|].
    split; [intros; by rewrite lookup_empty|]. by rewrite app_nil_r. }
  cbn in Hnd. apply NoDup_cons in Hnd as [Hc0 Hnd].
  cbn [foldl]. destruct (body (rem, s) (c0, p0)) as [rem1 s1] eqn:Hbody.
  apply ackLoopBody_spec in Hbody as (Hfr1 & Hrem1 & Hcomp1 & Htr1).
  intros Hfold. apply (IH Hnd) in Hfold as (Hfr & Hrem & Hcomp & Htr).
  assert (Hother : ∀ c, c ≠ c0 → completions s1 !! c = completions s !! c).
  { intros c Hc. rewrite Hcomp1. by case_decide. }
  assert (Hnone : (list_to_map l : gmap Completion pendingCompletion) !! c0 = None).
  { by apply not_elem_of_list_to_map_1. }
  split; [by eapply sameWrapper_trans|]. split; [|split].
  - intros c. rewrite Hrem. cbn [list_to_map foldr]. cbn.
    destruct (decide (c = c0)) as [->|Hne].
    + rewrite Hnone, lookup_insert_eq, Hrem1.
      destruct (entryKeep (completions s !! c0) p0); [by rewrite lookup_insert_eq|done].
    + rewrite lookup_insert_ne by done. rewrite (Hother c Hne).
      assert (rem1 !! c = rem !! c) as ->; [|done].
      rewrite Hrem1. destruct (entryKeep (completions s !! c0) p0); [|done].
      by rewrite lookup_insert_ne.
  - intros c. rewrite Hcomp. cbn.
    destruct (decide (c = c0)) as [->|Hne].
    + rewrite Hnone, lookup_insert_eq, Hcomp1. by case_decide.
    + rewrite lookup_insert_ne by done. by rewrite (Hother c Hne).
  - rewrite Htr, Htr1. cbn. rewrite <- app_assoc. do 2 f_equal.
    clear -Hc0 Hother. induction l as [|[c p] l IH]; [done|].
    cbn in *. apply not_elem_of_cons in Hc0 as [Hne Hc0].
    rewrite (Hother c) by done. f_equal. by apply IH.
Qed.

Lemma HandleResourceVersionAck_frame s :
  let s' := HandleResourceVersionAck ackVersion nackVersion nodeIP resourceNames
              typeURL detail s in
  mutator s' = mutator s ∧ version s' = version s ∧ restoring s' = restoring s ∧
  nextCompletion s' = nextCompletion s.
Proof.
  cbn. unfold HandleResourceVersionAck.
  set (s0 := match ackedVersions s !! nodeIP with Some _ => _ | None => _ end).
  assert (mutator s0 = mutator s ∧ version s0 = version s ∧
          restoring s0 = restoring s ∧ nextCompletion s0 = nextCompletion s) as Hs0.
  { subst s0. destruct (ackedVersions s !! nodeIP) as [prev|]; [|done].
    by destruct (prev <? ackVersion). }
  destruct (foldl _ _ _) as [rem' s'] eqn:Hfold.
  apply ackLoop_spec in Hfold as ((?&?&?&?&?&?) & _); [|apply NoDup_fst_map_to_list].
  cbn. destruct Hs0 as (?&?&?&?). repeat split; congruence.
Qed.

Lemma HandleResourceVersionAck_ackedVersions s :
  ackedVersions (HandleResourceVersionAck ackVersion nackVersion nodeIP resourceNames
                   typeURL detail s) =
  match ackedVersions s !! nodeIP with
  | Some prev => if prev <? ackVersion
                 then <[nodeIP := ackVersion]> (ackedVersions s)
                 else ackedVersions s
  | None => <[nodeIP := ackVersion]> (ackedVersions s)
  end.
Proof.
  unfold HandleResourceVersionAck.
  set (s0 := match ackedVersions s !! nodeIP with Some _ => _ | None => _ end).
  destruct (foldl _ _ _) as [rem' s'] eqn:Hfold.
  apply ackLoop_spec in Hfold as ((?&?&Hacked&?&?&?) & _); [|apply NoDup_fst_map_to_list].
  cbn. rewrite Hacked. subst s0.
  destruct (ackedVersions s !! nodeIP) as [prev|]; [|done].
  by destruct (prev <? ackVersion).
Qed.

Lemma HandleResourceVersionAck_pending s c :
  pendingCompletions (HandleResourceVersionAck ackVersion nackVersion nodeIP
                        resourceNames typeURL detail s) !! c =
  pendingCompletions s !! c ≫= entryKeep (completions s !! c).
Proof.
  unfold HandleResourceVersionAck.
  set (s0 := match ackedVersions s !! nodeIP with Some _ => _ | None => _ end).
  assert (pendingCompletions s0 = pendingCompletions s ∧
          completions s0 = completions s) as [Hp Hc].
  { subst s0. destruct (ackedVersions s !! nodeIP) as [prev|]; [|done].
    by destruct (prev <? ackVersion). }
  destruct (foldl _ _ _) as [rem' s'] eqn:Hfold.
  apply ackLoop_spec in Hfold as (_ & Hrem & _); [|apply NoDup_fst_map_to_list].
  cbn. rewrite Hrem, list_to_map_to_list, Hp, Hc, lookup_empty.
  destruct (pendingCompletions s !! c) as [p|]; [|done]. cbn.
  by destruct (entryKeep (completions s !! c) p).
Qed.

Lemma HandleResourceVersionAck_completions s c :
  completions (HandleResourceVersionAck ackVersion nackVersion nodeIP
                 resourceNames typeURL detail s) !! c =
  match pendingCompletions s !! c ≫= entryOutcome (completions s !! c) with
  | Some e => completeObj e <$> completions s !! c
  | None => completions s !! c
  end.
Proof.
  unfold HandleResourceVersionAck.
  set (s0 := match ackedVersions s !! nodeIP with Some _ => _ | None => _ end).
  assert (pendingCompletions s0 = pendingCompletions s ∧
          completions s0 = completions s) as [Hp Hc].
  { subst s0. destruct (ackedVersions s !! nodeIP) as [prev|]; [|done].
    by destruct (prev <? ackVersion). }
  destruct (foldl _ _ _) as [rem' s'] eqn:Hfold.
  apply ackLoop_spec in Hfold as (_ & _ & Hcomp & _); [|apply NoDup_fst_map_to_list].
  cbn. rewrite Hcomp, list_to_map_to_list, Hp, Hc.
  by destruct (pendingCompletions s !! c) as [p|].
Qed.

Lemma HandleResourceVersionAck_trace s :
  trace (HandleResourceVersionAck ackVersion nackVersion nodeIP
           resourceNames typeURL detail s) =
  trace s ++ flat_map (λ e, entryEvents (completions s !! e.1) e.1 e.2)
                      (map_to_list (pendingCompletions s)).
Proof.
  unfold HandleResourceVersionAck.
  set (s0 := match ackedVersions s !! nodeIP with Some _ => _ | None => _ end).
  assert (pendingCompletions s0 = pendingCompletions s ∧
          completions s0 = completions s ∧ trace s0 = trace s) as (Hp & Hc & Ht).
  { subst s0. destruct (ackedVersions s !! nodeIP) as [prev|]; [|done].
    by destruct (prev <? ackVersion). }
  destruct (foldl _ _ _) as [rem' s'] eqn:Hfold.
  apply ackLoop_spec in Hfold as (_ & _ & _ & Htr); [|apply NoDup_fst_map_to_list].
  cbn. by rewrite Htr, Hp, Hc, Ht.
Qed.

Lemma HandleResourceVersionAck_eventsSince s :
  eventsSince s (HandleResourceVersionAck ackVersion nackVersion nodeIP
                   resourceNames typeURL detail s) =
  flat_map (λ e, entryEvents (completions s !! e.1) e.1 e.2)
           (map_to_list (pendingCompletions s)).
Proof.
  unfold eventsSince. rewrite HandleResourceVersionAck_trace.
  apply drop_app_length.
Qed.

Lemma EvComplete_entryEvents o c c' pending e :
  EvComplete c e ∈ entryEvents o c' pending ↔
  c' = c ∧ entryOutcome o pending = Some e.
Proof.
  unfold entryEvents, completionEvents.
  destruct (entryOutcome o pending) as [e'|].
  - rewrite !elem_of_cons. split.
    + intros [Hm|[[= -> ->]|Hcb]]; [by destruct e'|done|].
      destruct o as [obj|]; [|by apply not_elem_of_nil in Hcb].
      destruct (c_result obj), (c_callback obj); set_solver.
    + intros [-> [= ->]]. auto.
  - split; [intros Hin; by apply not_elem_of_nil in Hin|by intros [_ ?]].
Qed.

Lemma HandleResourceVersionAck_completes s c e :
  EvComplete c e ∈ eventsSince s (HandleResourceVersionAck ackVersion nackVersion
                                    nodeIP resourceNames typeURL detail s) ↔
  ∃ p, pendingCompletions s !! c = Some p ∧
       entryOutcome (completions s !! c) p = Some e.
Proof.
  rewrite HandleResourceVersionAck_eventsSince, list_elem_of_In, in_flat_map.
  split.
  - intros ([c' p] & Hin & Hev). apply list_elem_of_In in Hin, Hev.
    apply elem_of_map_to_list in Hin. cbn in Hev.
    apply EvComplete_entryEvents in Hev as [-> Hout]. eauto.
  - intros (p & Hp & Hout). exists (c, p). rewrite <- !list_elem_of_In. split.
    + by apply elem_of_map_to_list.
    + cbn. by apply EvComplete_entryEvents.
Qed.

Lemma deleteNames_None names : deleteNames None names = None.
Proof. unfold deleteNames. by induction names. Qed.

Lemma deleteNames_Some (remaining : gset string) names :
  deleteNames (Some remaining) names = Some (remaining ∖ list_to_set names).
Proof.
  unfold deleteNames. revert remaining.
  induction names as [|n names IH]; intros remaining; cbn.
  - f_equal. set_solver.
  - rewrite IH. f_equal. set_solver.
Qed.

Lemma lenNames_deleteNames r names :
  lenNames (deleteNames r names) = 0%nat ↔ acksAll r names.
Proof.
  destruct r as [remaining|]; [|by rewrite deleteNames_None].
  rewrite deleteNames_Some. cbn. rewrite size_empty_iff. split.
  - intros Hempty name Hin. destruct (decide (name ∈ names)) as [|Hnot]; [done|].
    exfalso. set_solver.
  - intros Hall. set_solver.
Qed.

(** When the loop body completes the completion of [pending], and with
    what. *)
Lemma ackPending_outcome pending e :
  (ackPending ackVersion nackVersion nodeIP resourceNames typeURL detail pending).2
    = Some e ↔
  pc_typeURL pending = typeURL ∧ pc_version pending ≤ nackVersion ∧
  (∃ r, pc_remainingNodesResources pending !! nodeIP = Some r ∧
        acksAll r resourceNames) ∧
  (∀ n, n ≠ nodeIP → pc_remainingNodesResources pending !! n = None) ∧
  e = ackOrNack (pc_version pending) ackVersion detail.
Proof.
  unfold ackPending, ackOrNack.
  case_bool_decide as HT; [|cbn; naive_solver].
  destruct (pc_version pending <=? nackVersion) eqn:Hnack; cycle 1.
  { apply N.leb_gt in Hnack. cbn. split; [done|]. intros (_ & Hle & _). lia. }
  apply N.leb_le in Hnack.
  destruct (pc_remainingNodesResources pending !! nodeIP) as [r|] eqn:Hr;
    [|cbn; naive_solver].
  cbn zeta.
  destruct (decide (lenNames (deleteNames r resourceNames) = 0%nat)) as [Hlen|Hlen].
  - rewrite (bool_decide_true (lenNames _ = 0%nat)) by done.
    apply lenNames_deleteNames in Hlen.
    case_bool_decide as Hsize; cbn [pc_version].
    + apply map_size_empty_iff in Hsize.
      assert (∀ n, n ≠ nodeIP → pc_remainingNodesResources pending !! n = None) as Hlast.
      { intros n Hne. rewrite <- (lookup_delete_ne _ nodeIP n) by done.
        by rewrite Hsize, lookup_empty. }
      destruct (pc_version pending <=? ackVersion); cbn; naive_solver.
    + cbn. split; [done|]. intros (_ & _ & _ & Hlast & _). exfalso. apply Hsize.
      apply map_size_empty_iff, map_eq. intros n. rewrite lookup_empty.
      destruct (decide (n = nodeIP)) as [->|Hne]; [apply lookup_delete_eq|].
      rewrite lookup_delete_ne by done. by apply Hlast.
  - rewrite (bool_decide_false (lenNames _ = 0%nat)) by done.
    rewrite lenNames_deleteNames in Hlen.
    rewrite bool_decide_false; [cbn; naive_solver|].
    intros Hsize. apply map_size_empty_iff in Hsize.
    apply (f_equal (λ m, m !! nodeIP)) in Hsize.
    by rewrite lookup_insert_eq, lookup_empty in Hsize.
Qed.

End AckLoop.

(** ** Building the per-node maps *)

Lemma foldl_insert_lookup {A} (x : A) (nodeIDs : list string) (r : gmap string A) n :
  foldl (λ r nodeID, <[nodeID := x]> r) r nodeIDs !! n =
  if decide (n ∈ nodeIDs) then Some x else r !! n.
Proof.
  revert r. induction nodeIDs as [|n0 l IH]; intros r; cbn.
  { case_decide as Hin; [by apply not_elem_of_nil in Hin|done]. }
  rewrite IH. destruct (decide (n = n0)) as [->|Hne].
  - rewrite lookup_insert_eq. clear IH.
    repeat case_decide; try done; exfalso; set_solver.
  - rewrite lookup_insert_ne by done. clear IH.
    repeat case_decide; try done; exfalso; set_solver.
Qed.

Lemma foldl_insert_gset_to_gmap {A} (x : A) (nodeIDs : list string) :
  foldl (λ r nodeID, <[nodeID := x]> r) ∅ nodeIDs =
  gset_to_gmap x (list_to_set nodeIDs).
Proof.
  apply map_eq. intros n. rewrite foldl_insert_lookup, lookup_gset_to_gmap, lookup_empty.
  case_decide as Hin.
  - rewrite option_guard_True; [done|]. by apply elem_of_list_to_set.
  - rewrite option_guard_False; [done|]. by rewrite elem_of_list_to_set.
Qed.

Lemma currentVersionAcked_from_true acked v nodeIDs :
  currentVersionAcked_from acked v nodeIDs = true ↔
  ∀ n, n ∈ nodeIDs → ∃ a, acked !! n = Some a ∧ v ≤ a.
Proof.
  induction nodeIDs as [|n0 l IH]; cbn.
  { split; [|done]. intros _ n Hn. by apply not_elem_of_nil in Hn. }
  split.
  - destruct (acked !! n0) as [a|] eqn:Ha; [|done].
    destruct (a <? v) eqn:Hlt; [done|]. apply N.ltb_ge in Hlt.
    intros Hrest n Hn. apply elem_of_cons in Hn as [->|Hn]; [eauto|].
    by apply IH.
  - intros Hall. destruct (Hall n0) as (a & -> & Hle); [apply list_elem_of_here|].
    apply N.ltb_ge in Hle as ->. apply IH. intros n Hn. apply Hall.
    by apply list_elem_of_further.
Qed.

(** ** Sequences of acknowledgements *)

Lemma handle_ackedVersions_mono s (a : AckMsg) node v :
  ackedVersions s !! node = Some v →
  ∃ v', ackedVersions (handle s a) !! node = Some v' ∧ v ≤ v'.
Proof.
  intros Hv. unfold handle. rewrite HandleResourceVersionAck_ackedVersions.
  destruct (decide (node = msg_nodeIP a)) as [->|Hne].
  - rewrite Hv. destruct (v <? msg_ackVersion a) eqn:Hlt.
    + apply N.ltb_lt in Hlt. rewrite lookup_insert_eq. eexists. split; [done|lia].
    + eauto.
  - destruct (ackedVersions s !! msg_nodeIP a) as [prev|].
    + destruct (prev <? msg_ackVersion a); [rewrite lookup_insert_ne by done|]; eauto.
    + rewrite lookup_insert_ne by done. eauto.
Qed.

(** C3: the acked version recorded for a node never decreases over any
    sequence of HandleResourceVersionAck calls; a call whose ackVersion is
    at most the recorded one leaves [ackedVersions] as it is; a node
    without a record gets the ackVersion of the message, zero included. *)
Theorem ackedVersions_monotone s (msgs : list AckMsg) (a : AckMsg) (node : string) :
  (∀ v, ackedVersions s !! node = Some v →
        ∃ v', ackedVersions (handleAll s msgs) !! node = Some v' ∧ v ≤ v') ∧
  (∀ v, ackedVersions s !! msg_nodeIP a = Some v → msg_ackVersion a ≤ v →
        ackedVersions (handle s a) = ackedVersions s) ∧
  (ackedVersions s !! msg_nodeIP a = None →
        ackedVersions (handle s a) !! msg_nodeIP a = Some (msg_ackVersion a)).
Proof.
  split; [|split].
  - revert s. induction msgs as [|m msgs IH]; intros s v Hv; cbn.
    + eauto.
    + destruct (handle_ackedVersions_mono s m node v Hv) as (v1 & Hv1 & Hle1).
      destruct (IH _ _ Hv1) as (v' & Hv' & Hle'). exists v'. split; [done|lia].
  - intros v Hv Hle. unfold handle. rewrite HandleResourceVersionAck_ackedVersions, Hv.
    apply N.ltb_ge in Hle. by rewrite Hle.
  - intros Hnone. unfold handle.
    rewrite HandleResourceVersionAck_ackedVersions, Hnone. apply lookup_insert_eq.
Qed.

(** ** Restoring *)

(** C5: while [restoring] is set, Upsert and Delete with a non-nil
    WaitGroup allocate and register nothing and call the callback, if
    there is one, at once with nil; UseCurrent does nothing at all. *)
Theorem restoring_bypass s typeURL resourceName (resource : Resource)
    (nodeIDs : list string) (wg : WaitGroup) (callback : option Callback) :
  restoring s = true →
  (∃ rv s', Upsert typeURL resourceName resource nodeIDs (Some wg) callback s = Ok (rv, s') ∧
     pendingCompletions s' = pendingCompletions s ∧
     completions s' = completions s ∧ nextCompletion s' = nextCompletion s ∧
     restoring s' = true ∧
     eventsSince s s' = match callback with
                        | Some cb => [EvCallback cb None]
                        | None => []
                        end) ∧
  (∃ rv s', Delete typeURL resourceName nodeIDs (Some wg) callback s = Ok (rv, s') ∧
     pendingCompletions s' = pendingCompletions s ∧
     completions s' = completions s ∧ nextCompletion s' = nextCompletion s ∧
     restoring s' = true ∧
     eventsSince s s' = match callback with
                        | Some cb => [EvCallback cb None]
                        | None => []
                        end) ∧
  UseCurrent typeURL nodeIDs (Some wg) s = s.
Proof.
  intros Hr. split; [|split].
  - unfold Upsert. rewrite Hr.
    destruct (mutUpsert _ _ _ _) as [[[v updated] revert] st].
    destruct updated; cbn; destruct callback as [cb|]; do 2 eexists;
      (split; [reflexivity|]); cbn; unfold eventsSince; cbn;
      rewrite ?drop_app_length, ?drop_all; by repeat split.
  - unfold Delete. rewrite Hr.
    destruct (mutDelete _ _ _) as [[[v updated] revert] st].
    destruct updated; cbn; destruct callback as [cb|]; do 2 eexists;
      (split; [reflexivity|]); cbn; unfold eventsSince; cbn;
      rewrite ?drop_app_length, ?drop_all; by repeat split.
  - unfold UseCurrent. by rewrite Hr.
Qed.

(** ** Reuse of a completion *)

(** C6: when a changed Upsert or Delete that waits gets from the WaitGroup
    a completion that is already a key of [pendingCompletions], the call
    ends in [logging.Fatal] and registers nothing. *)
Theorem reuse_is_fatal s typeURL resourceName (resource : Resource)
    (nodeIDs : list string) (wg : WaitGroup) (callback : option Callback) :
  restoring s = false →
  is_Some (pendingCompletions s !! (AddCompletionWithCallback wg callback s).1) →
  ((mutUpsert typeURL resourceName resource (mutator s)).1.1.2 = true →
   ∃ msg, Upsert typeURL resourceName resource nodeIDs (Some wg) callback s = Fatal msg) ∧
  ((mutDelete typeURL resourceName (mutator s)).1.1.2 = true →
   ∃ msg, Delete typeURL resourceName nodeIDs (Some wg) callback s = Fatal msg).
Proof.
  intros Hr Hfound. cbn in Hfound. split.
  - unfold Upsert. rewrite Hr.
    destruct (mutUpsert _ _ _ _) as [[[v updated] revert] st]. cbn.
    intros ->. cbn. rewrite bool_decide_true by done. eauto.
  - unfold Delete. rewrite Hr.
    destruct (mutDelete _ _ _) as [[[v updated] revert] st]. cbn.
    intros ->. cbn. rewrite bool_decide_true by done. eauto.
Qed.

Lemma handleAll_cons s a msgs : handleAll s (a :: msgs) = handleAll (handle s a) msgs.
Proof. reflexivity. Qed.

Lemma handle_trace s a : trace (handle s a) = trace s ++ eventsSince s (handle s a).
Proof.
  unfold handle. by rewrite HandleResourceVersionAck_eventsSince,
    HandleResourceVersionAck_trace.
Qed.

Lemma handleAll_trace s msgs :
  trace (handleAll s msgs) = trace s ++ eventsSince s (handleAll s msgs).
Proof.
  revert s. induction msgs as [|a msgs IH]; intros s.
  - cbn. unfold eventsSince. by rewrite drop_all, app_nil_r.
  - rewrite handleAll_cons. unfold eventsSince at 1.
    rewrite IH, handle_trace, <- app_assoc. by rewrite drop_app_length.
Qed.

Lemma eventsSince_handleAll_cons s a msgs :
  eventsSince s (handleAll s (a :: msgs)) =
  eventsSince s (handle s a) ++ eventsSince (handle s a) (handleAll (handle s a) msgs).
Proof.
  rewrite handleAll_cons. unfold eventsSince at 1.
  rewrite handleAll_trace, handle_trace, <- app_assoc. by rewrite drop_app_length.
Qed.

(** A call that does not complete [c] leaves its object and adds no
    [Complete] event for it. *)
Lemma handle_quiet s a c :
  pendingCompletions s !! c ≫=
    entryOutcome (msg_ackVersion a) (msg_nackVersion a) (msg_nodeIP a)
      (msg_resourceNames a) (msg_typeURL a) (msg_detail a) (completions s !! c) = None →
  completions (handle s a) !! c = completions s !! c ∧
  ∀ e, EvComplete c e ∉ eventsSince s (handle s a).
Proof.
  intros Hnone. unfold handle. split.
  - by rewrite HandleResourceVersionAck_completions, Hnone.
  - intros e Hin. apply HandleResourceVersionAck_completes in Hin as (p & Hp & Hout).
    rewrite Hp in Hnone. cbn in Hnone. congruence.
Qed.

Lemma handleAll_quiet (I : State Store → Prop) c :
  (∀ s a, I s → I (handle s a) ∧ completions (handle s a) !! c = completions s !! c ∧
               ∀ e, EvComplete c e ∉ eventsSince s (handle s a)) →
  ∀ msgs s, I s →
    I (handleAll s msgs) ∧ completions (handleAll s msgs) !! c = completions s !! c ∧
    ∀ e, EvComplete c e ∉ eventsSince s (handleAll s msgs).
Proof.
  intros Hstep. induction msgs as [|a msgs IH]; intros s HI.
  - cbn. split; [done|]. split; [done|]. intros e. unfold eventsSince.
    rewrite drop_all. apply not_elem_of_nil.
  - destruct (Hstep s a HI) as (HI1 & Hc1 & Hev1).
    destruct (IH _ HI1) as (HI2 & Hc2 & Hev2).
    rewrite eventsSince_handleAll_cons, handleAll_cons.
    split; [done|]. split; [congruence|].
    intros e [Hin|Hin]%elem_of_app; [by eapply Hev1|by eapply Hev2].
Qed.

(** A completion that is not pending is out of reach of acknowledgements. *)
Lemma handleAll_not_pending s msgs c :
  pendingCompletions s !! c = None →
  pendingCompletions (handleAll s msgs) !! c = None ∧
  completions (handleAll s msgs) !! c = completions s !! c ∧
  ∀ e, EvComplete c e ∉ eventsSince s (handleAll s msgs).
Proof.
  revert s. apply (handleAll_quiet (λ s, pendingCompletions s !! c = None)).
  intros s a Hnone. split.
  - unfold handle. by rewrite HandleResourceVersionAck_pending, Hnone.
  - apply handle_quiet. by rewrite Hnone.
Qed.

(** A canceled pending completion is dropped by the next acknowledgement,
    whatever it is, and is not completed. *)
Lemma handle_canceled s a c p :
  pendingCompletions s !! c = Some p →
  Completion_Err c s = true →
  pendingCompletions (handle s a) !! c = None ∧
  completions (handle s a) !! c = completions s !! c ∧
  ∀ e, EvComplete c e ∉ eventsSince s (handle s a).
Proof.
  intros Hp Hc. rewrite Completion_Err_lookup in Hc. split.
  - unfold handle. rewrite HandleResourceVersionAck_pending, Hp. cbn.
    unfold entryKeep. by rewrite Hc.
  - apply handle_quiet. rewrite Hp. cbn. unfold entryOutcome. by rewrite Hc.
Qed.

(** ** Resolution of one completion by one message *)

(** C2: an uncanceled pending completion is completed by a message exactly
    when the message is for its type URL, its nackVersion reaches the
    pending version, it names all that its node still awaits, and no other
    node remains; the error is nil when the ackVersion reaches the pending
    version and otherwise a ProxyError of ErrNackReceived with the detail
    of the message; the completion then leaves [pendingCompletions]. *)
Theorem nack_resolution s c p ackVersion nackVersion nodeIP
    (resourceNames : list string) typeURL detail (e : goerror) :
  pendingCompletions s !! c = Some p →
  Completion_Err c s = false →
  let s' := HandleResourceVersionAck ackVersion nackVersion nodeIP resourceNames
              typeURL detail s in
  (EvComplete c e ∈ eventsSince s s' ↔
     pc_typeURL p = typeURL ∧ pc_version p ≤ nackVersion ∧
     (∃ r, pc_remainingNodesResources p !! nodeIP = Some r ∧ acksAll r resourceNames) ∧
     (∀ n, n ≠ nodeIP → pc_remainingNodesResources p !! n = None) ∧
     e = ackOrNack (pc_version p) ackVersion detail) ∧
  (EvComplete c e ∈ eventsSince s s' →
     pendingCompletions s' !! c = None ∧
     completions s' !! c = completeObj e <$> completions s !! c) ∧
  (pc_version p ≤ ackVersion → ackOrNack (pc_version p) ackVersion detail = None) ∧
  (ackVersion < pc_version p →
     ackOrNack (pc_version p) ackVersion detail =
     Some {| Err := ErrNackReceived; Detail := detail |}).
Proof.
  intros Hp Hc. rewrite Completion_Err_lookup in Hc. cbn zeta.
  assert (∀ e', EvComplete c e' ∈ eventsSince s
             (HandleResourceVersionAck ackVersion nackVersion nodeIP resourceNames
                typeURL detail s) ↔
           (ackPending ackVersion nackVersion nodeIP resourceNames typeURL detail p).2
             = Some e') as Hev.
  { intros e'. rewrite HandleResourceVersionAck_completes, Hp. unfold entryOutcome.
    rewrite Hc. split; [by intros (? & [= <-] & ?)|eauto]. }
  split; [|split; [|split]].
  - by rewrite Hev, ackPending_outcome.
  - intros Hin%Hev.
    rewrite HandleResourceVersionAck_pending, HandleResourceVersionAck_completions, Hp.
    cbn. unfold entryKeep, entryOutcome. rewrite Hc.
    destruct (ackPending _ _ _ _ _ _ p) as [p' out]. cbn in Hin. by subst out.
  - intros Hle%N.leb_le. unfold ackOrNack. by rewrite Hle.
  - intros Hlt%N.leb_gt. unfold ackOrNack. by rewrite Hlt.
Qed.

(** ** Canceled completions *)

Lemma addVersionCompletion_dom typeURL v nodeIDs c c' s :
  c' ∈ dom (pendingCompletions s) →
  c' ∈ dom (pendingCompletions (addVersionCompletion typeURL v nodeIDs c s)).
Proof. cbn. rewrite dom_insert_L. set_solver. Qed.

Lemma useCurrent_dom typeURL nodeIDs wg callback c' s :
  c' ∈ dom (pendingCompletions s) →
  c' ∈ dom (pendingCompletions (useCurrent typeURL nodeIDs wg callback s)).
Proof.
  intros Hin. unfold useCurrent. destruct (negb _); [|done].
  cbn. rewrite dom_insert_L. set_solver.
Qed.

Lemma revertChange_dom revert typeURL nodeIDs completion c' s :
  c' ∈ dom (pendingCompletions s) →
  c' ∈ dom (pendingCompletions (revertChange revert typeURL nodeIDs completion s)).
Proof.
  intros Hin. unfold revertChange. destruct revert as [rv|]; [|done].
  destruct (rv (mutator s)) as [[v b] st]. destruct completion as [c|]; [|done].
  by apply addVersionCompletion_dom.
Qed.

(** C4, amended: a pending completion whose context is canceled is
    dropped, without being completed, by the next HandleResourceVersionAck,
    whatever the type URL of that call, and no later acknowledgement
    completes it; no other method of the wrapper takes it out of
    [pendingCompletions]. *)
Theorem canceled_dropped s c p :
  pendingCompletions s !! c = Some p →
  Completion_Err c s = true →
  (∀ (a : AckMsg) (msgs : list AckMsg),
     let s' := handleAll s (a :: msgs) in
     pendingCompletions (handle s a) !! c = None ∧
     pendingCompletions s' !! c = None ∧
     completions s' !! c = completions s !! c ∧
     ∀ e, EvComplete c e ∉ eventsSince s s') ∧
  (∀ typeURL nodeIDs wg,
     c ∈ dom (pendingCompletions (UseCurrent typeURL nodeIDs wg s))) ∧
  (∀ nodeID, c ∈ dom (pendingCompletions (DeleteNode nodeID s))) ∧
  c ∈ dom (pendingCompletions (MarkRestorePending s)) ∧
  c ∈ dom (pendingCompletions (MarkRestoreCompleted s)) ∧
  (∀ typeURL resourceName (resource : Resource) nodeIDs wg callback rv s',
     Upsert typeURL resourceName resource nodeIDs wg callback s = Ok (rv, s') →
     c ∈ dom (pendingCompletions s')) ∧
  (∀ typeURL resourceName nodeIDs wg callback rv s',
     Delete typeURL resourceName nodeIDs wg callback s = Ok (rv, s') →
     c ∈ dom (pendingCompletions s')) ∧
  (∀ revert typeURL nodeIDs completion,
     c ∈ dom (pendingCompletions (revertChange revert typeURL nodeIDs completion s))).
Proof.
  intros Hp Hc.
  assert (c ∈ dom (pendingCompletions s)) as Hdom by (apply elem_of_dom; eauto).
  split.
  { intros a msgs. cbn zeta.
    destruct (handle_canceled s a c p Hp Hc) as (Hp1 & Hc1 & Hev1).
    destruct (handleAll_not_pending (handle s a) msgs c Hp1) as (Hp2 & Hc2 & Hev2).
    rewrite eventsSince_handleAll_cons, handleAll_cons.
    split; [done|]. split; [done|]. split; [congruence|].
    intros e [Hin|Hin]%elem_of_app; [by eapply Hev1|by eapply Hev2]. }
  split.
  { intros typeURL nodeIDs wg. unfold UseCurrent. destruct wg as [g|]; [|done].
    destruct (restoring s); [done|]. cbn. by apply useCurrent_dom. }
  split; [done|]. split; [done|]. split; [done|]. split; [|split].
  - intros typeURL resourceName resource nodeIDs wg callback rv s'. unfold Upsert.
    destruct (mutUpsert _ _ _ _) as [[[v updated] revert] st].
    destruct updated, wg as [g|], (restoring s), callback as [cb|]; cbn;
      try (intros [= _ <-]; first [done | by apply useCurrent_dom]).
    all: case_bool_decide; [done|]; intros [= _ <-]; cbn;
      rewrite dom_insert_L; set_solver.
  - intros typeURL resourceName nodeIDs wg callback rv s'. unfold Delete.
    destruct (mutDelete _ _ _) as [[[v updated] revert] st].
    destruct updated, wg as [g|], (restoring s), callback as [cb|]; cbn;
      try (intros [= _ <-]; first [done | by apply useCurrent_dom]).
    all: case_bool_decide; [done|]; intros [= _ <-]; cbn;
      rewrite dom_insert_L; set_solver.
  - intros. by apply revertChange_dom.
Qed.

(** ** Completions with one shape for all nodes *)

Lemma ackPending_hit v typeURL name (nodes : gset string) (a : AckMsg) :
  covers v typeURL name a = true →
  msg_nodeIP a ∈ nodes →
  ackPending (msg_ackVersion a) (msg_nackVersion a) (msg_nodeIP a)
    (msg_resourceNames a) (msg_typeURL a) (msg_detail a)
    {| pc_version := v; pc_typeURL := typeURL;
       pc_remainingNodesResources := gset_to_gmap (awaited name) nodes |} =
  ({| pc_version := v; pc_typeURL := typeURL;
      pc_remainingNodesResources :=
        gset_to_gmap (awaited name) (nodes ∖ {[msg_nodeIP a]}) |},
   if decide (nodes ∖ {[msg_nodeIP a]} = ∅)
   then Some (ackOrNack v (msg_ackVersion a) (msg_detail a))
   else None).
Proof.
  unfold covers. intros [[HT Hnack]%andb_prop Hname]%andb_prop Hin.
  apply bool_decide_eq_true in HT. unfold ackPending. cbn.
  rewrite bool_decide_true by done. rewrite Hnack.
  assert (gset_to_gmap (awaited name) nodes !! msg_nodeIP a = Some (awaited name)) as ->.
  { by apply lookup_gset_to_gmap_Some. }
  assert (lenNames (deleteNames (awaited name) (msg_resourceNames a)) = 0%nat) as Hlen.
  { apply lenNames_deleteNames. destruct name as [r|]; [|done]. cbn.
    apply bool_decide_eq_true in Hname. intros n ->%elem_of_singleton. done. }
  rewrite (bool_decide_true (lenNames _ = 0%nat)) by done.
  rewrite <- gset_to_gmap_difference_singleton.
  destruct (decide (nodes ∖ {[msg_nodeIP a]} = ∅)) as [Hempty|Hne].
  - rewrite Hempty, gset_to_gmap_empty. rewrite bool_decide_true by done.
    unfold ackOrNack. by destruct (v <=? msg_ackVersion a).
  - rewrite bool_decide_false; [done|]. intros Hsize%map_size_empty_iff.
    apply Hne. by rewrite <- (dom_gset_to_gmap _ (awaited name)), Hsize, dom_empty_L.
Qed.

Lemma ackPending_miss v typeURL name (nodes : gset string) (a : AckMsg) :
  ¬ (covers v typeURL name a = true ∧ msg_nodeIP a ∈ nodes) →
  ackPending (msg_ackVersion a) (msg_nackVersion a) (msg_nodeIP a)
    (msg_resourceNames a) (msg_typeURL a) (msg_detail a)
    {| pc_version := v; pc_typeURL := typeURL;
       pc_remainingNodesResources := gset_to_gmap (awaited name) nodes |} =
  ({| pc_version := v; pc_typeURL := typeURL;
      pc_remainingNodesResources := gset_to_gmap (awaited name) nodes |}, None).
Proof.
  intros Hmiss. unfold ackPending. cbn.
  case_bool_decide as HT; [|done].
  destruct (v <=? msg_nackVersion a) eqn:Hnack; [|done].
  destruct (gset_to_gmap (awaited name) nodes !! msg_nodeIP a) as [r|] eqn:Hr; [|done].
  apply lookup_gset_to_gmap_Some in Hr as [Hin <-].
  destruct name as [r|]; cycle 1.
  { exfalso. apply Hmiss. split; [|done]. unfold covers.
    by rewrite bool_decide_true, Hnack. }
  assert (r ∉ msg_resourceNames a) as Hnot.
  { intros Hr. apply Hmiss. split; [|done]. unfold covers.
    by rewrite !bool_decide_true, Hnack. }
  cbn [awaited]. rewrite deleteNames_Some.
  assert ({[r]} ∖ list_to_set (msg_resourceNames a) = ({[r]} : gset string)) as ->.
  { set_solver. }
  cbn [lenNames]. rewrite size_singleton. rewrite (bool_decide_false (1%nat = 0%nat)) by done.
  rewrite insert_id by by apply lookup_gset_to_gmap_Some.
  rewrite bool_decide_false; [done|]. intros Hsize%map_size_empty_iff.
  apply (f_equal dom) in Hsize. rewrite dom_gset_to_gmap, dom_empty_L in Hsize.
  set_solver.
Qed.

(** The same two steps on the state. *)
Lemma handle_hit s c v typeURL name (nodes : gset string) (a : AckMsg) :
  pendingCompletions s !! c =
    Some {| pc_version := v; pc_typeURL := typeURL;
            pc_remainingNodesResources := gset_to_gmap (awaited name) nodes |} →
  Completion_Err c s = false →
  covers v typeURL name a = true →
  msg_nodeIP a ∈ nodes →
  if decide (nodes ∖ {[msg_nodeIP a]} = ∅) then
    pendingCompletions (handle s a) !! c = None ∧
    completions (handle s a) !! c =
      completeObj (ackOrNack v (msg_ackVersion a) (msg_detail a)) <$> completions s !! c ∧
    EvComplete c (ackOrNack v (msg_ackVersion a) (msg_detail a))
      ∈ eventsSince s (handle s a)
  else
    pendingCompletions (handle s a) !! c =
      Some {| pc_version := v; pc_typeURL := typeURL;
              pc_remainingNodesResources :=
                gset_to_gmap (awaited name) (nodes ∖ {[msg_nodeIP a]}) |} ∧
    completions (handle s a) !! c = completions s !! c ∧
    ∀ e, EvComplete c e ∉ eventsSince s (handle s a).
Proof.
  intros Hp Hc Hcov Hin. rewrite Completion_Err_lookup in Hc.
  pose proof (ackPending_hit v typeURL name nodes a Hcov Hin) as Hstep.
  unfold handle.
  rewrite HandleResourceVersionAck_pending, HandleResourceVersionAck_completions, Hp.
  cbn. unfold entryKeep, entryOutcome. rewrite Hc, Hstep.
  destruct (decide (nodes ∖ {[msg_nodeIP a]} = ∅)); cbn.
  - split; [done|]. split; [done|].
    apply HandleResourceVersionAck_completes. eexists. split; [done|].
    unfold entryOutcome. by rewrite Hc, Hstep.
  - split; [done|]. split; [done|].
    intros e (p' & Hp' & Hout)%HandleResourceVersionAck_completes.
    rewrite Hp in Hp'. injection Hp' as <-.
    unfold entryOutcome in Hout. by rewrite Hc, Hstep in Hout.
Qed.

Lemma handle_miss s c v typeURL name (nodes : gset string) (a : AckMsg) :
  pendingCompletions s !! c =
    Some {| pc_version := v; pc_typeURL := typeURL;
            pc_remainingNodesResources := gset_to_gmap (awaited name) nodes |} →
  Completion_Err c s = false →
  ¬ (covers v typeURL name a = true ∧ msg_nodeIP a ∈ nodes) →
  pendingCompletions (handle s a) !! c = pendingCompletions s !! c ∧
  completions (handle s a) !! c = completions s !! c ∧
  ∀ e, EvComplete c e ∉ eventsSince s (handle s a).
Proof.
  intros Hp Hc Hmiss. rewrite Completion_Err_lookup in Hc.
  pose proof (ackPending_miss v typeURL name nodes a Hmiss) as Hstep.
  split.
  - unfold handle. rewrite HandleResourceVersionAck_pending, Hp. cbn.
    unfold entryKeep. by rewrite Hc, Hstep.
  - apply handle_quiet. rewrite Hp. cbn. unfold entryOutcome. by rewrite Hc, Hstep.
Qed.

(** ** Which message resolves a completion *)

Lemma last_node (nodes : gset string) n :
  n ∈ nodes → nodes ∖ {[n]} = ∅ → nodes = {[n]}.
Proof.
  intros Hin Hempty. apply set_eq. intros x. rewrite elem_of_singleton. split.
  - intros Hx. destruct (decide (x = n)) as [|Hne]; [done|].
    exfalso. apply (not_elem_of_empty (C:=gset string) x).
    rewrite <- Hempty. set_solver.
  - by intros ->.
Qed.

Lemma resolvedWith_nil v typeURL name nodes a :
  ¬ resolvedWith v typeURL name nodes [] a.
Proof. intros (pre & post & Heq & _). by destruct pre. Qed.

Lemma resolvedWith_empty v typeURL name msgs a :
  ¬ resolvedWith v typeURL name ∅ msgs a.
Proof. intros (pre & post & _ & Hrem & _). set_solver. Qed.

Lemma resolvedWith_cons v typeURL name nodes m msgs a :
  resolvedWith v typeURL name nodes (m :: msgs) a ↔
  (a = m ∧ nodes = {[msg_nodeIP m]} ∧ covers v typeURL name m = true) ∨
  resolvedWith v typeURL name
    (nodes ∖ (if covers v typeURL name m then {[msg_nodeIP m]} else ∅)) msgs a.
Proof.
  split.
  - intros (pre & post & Heq & Hrem & Hcov). destruct pre as [|m' pre].
    + cbn in Heq, Hrem. injection Heq as <- <-. left. split; [done|].
      split; [|done]. rewrite <- Hrem. set_solver.
    + cbn in Heq. injection Heq as <- ->. right. exists pre, post.
      split; [done|]. split; [|done]. rewrite <- Hrem. cbn. set_solver.
  - intros [(-> & -> & Hcov)|(pre & post & -> & Hrem & Hcov)].
    + exists [], msgs. split; [done|]. split; [|done]. cbn. set_solver.
    + exists (m :: pre), post. split; [done|]. split; [|done].
      rewrite <- Hrem. cbn. set_solver.
Qed.

Lemma resolution_char c v typeURL name (msgs : list AckMsg) :
  ∀ (nodes : gset string) s obj,
  pendingCompletions s !! c =
    Some {| pc_version := v; pc_typeURL := typeURL;
            pc_remainingNodesResources := gset_to_gmap (awaited name) nodes |} →
  completions s !! c = Some obj → c_canceled obj = false → c_result obj = None →
  ∀ e, outcome c (handleAll s msgs) = Some (Some e) ↔
       ∃ a, resolvedWith v typeURL name nodes msgs a ∧
            e = ackOrNack v (msg_ackVersion a) (msg_detail a).
Proof.
  unfold outcome.
  induction msgs as [|m msgs IH]; intros nodes s obj Hp Hobj Hcan Hres e.
  { cbn. rewrite Hobj. cbn. rewrite Hres. split; [done|].
    intros (a & Hr & _). by apply resolvedWith_nil in Hr. }
  assert (Completion_Err c s = false) as Herr.
  { by rewrite Completion_Err_lookup, Hobj. }
  rewrite handleAll_cons.
  setoid_rewrite resolvedWith_cons.
  destruct (decide (covers v typeURL name m = true ∧ msg_nodeIP m ∈ nodes))
    as [[Hcov Hin]|Hmiss].
  - pose proof (handle_hit s c v typeURL name nodes m Hp Herr Hcov Hin) as Hstep.
    rewrite Hcov. destruct (decide (nodes ∖ {[msg_nodeIP m]} = ∅)) as [Hlast|Hmore].
    + destruct Hstep as (Hp1 & Hc1 & _).
      destruct (handleAll_not_pending _ msgs c Hp1) as (_ & -> & _).
      rewrite Hc1, Hobj. cbn. unfold completeObj. rewrite Hres. cbn.
      rewrite Hlast. split.
      * intros Heq. assert (e = ackOrNack v (msg_ackVersion m) (msg_detail m)) as ->
          by congruence.
        exists m. split; [|done]. left. split; [done|].
        split; [|done]. by apply last_node.
      * intros (a & [(-> & _)|Hr] & ->); [done|].
        by apply resolvedWith_empty in Hr.
    + destruct Hstep as (Hp1 & Hc1 & _).
      rewrite (IH _ _ obj Hp1) by congruence.
      split; intros (a & Hr & ->); exists a; (split; [|done]); [by right|].
      destruct Hr as [(_ & -> & _)|Hr]; [|done]. exfalso. set_solver.
  - destruct (handle_miss s c v typeURL name nodes m Hp Herr Hmiss) as (Hp1 & Hc1 & _).
    rewrite Hp in Hp1.
    rewrite (IH _ _ obj Hp1) by congruence.
    assert (nodes ∖ (if covers v typeURL name m then {[msg_nodeIP m]} else ∅) = nodes)
      as Hsame.
    { destruct (covers v typeURL name m); [|set_solver].
      assert (msg_nodeIP m ∉ nodes) by (intros ?; by apply Hmiss). set_solver. }
    rewrite Hsame.
    split; intros (a & Hr & ->); exists a; (split; [|done]); [by right|].
    destruct Hr as [(_ & -> & Hcov)|Hr]; [|done]. exfalso. apply Hmiss.
    split; [done|]. set_solver.
Qed.

(** ** What a changed Upsert or Delete that waits registers *)

Lemma Upsert_registers s typeURL resourceName (resource : Resource)
    (nodeIDs : list string) (wg : WaitGroup) (callback : option Callback) rv s1 :
  restoring s = false →
  (mutUpsert typeURL resourceName resource (mutator s)).1.1.2 = true →
  Upsert typeURL resourceName resource nodeIDs (Some wg) callback s = Ok (rv, s1) →
  pendingCompletions s1 !! nextCompletion s =
    Some {| pc_version := version s1; pc_typeURL := typeURL;
            pc_remainingNodesResources :=
              gset_to_gmap (awaited (Some resourceName)) (list_to_set nodeIDs) |} ∧
  completions s1 !! nextCompletion s =
    Some {| c_wg := wg; c_callback := callback; c_canceled := false; c_result := None |} ∧
  version s1 = (mutUpsert typeURL resourceName resource (mutator s)).1.1.1 ∧
  trace s1 = trace s.
Proof.
  intros Hr. unfold Upsert. rewrite Hr.
  destruct (mutUpsert _ _ _ _) as [[[v updated] revert] st]. cbn.
  intros ->. cbn. case_bool_decide; [done|]. intros [= _ <-]. cbn.
  rewrite !lookup_insert_eq, foldl_insert_gset_to_gmap. done.
Qed.

Lemma Delete_registers s typeURL resourceName
    (nodeIDs : list string) (wg : WaitGroup) (callback : option Callback) rv s1 :
  restoring s = false →
  (mutDelete typeURL resourceName (mutator s)).1.1.2 = true →
  Delete typeURL resourceName nodeIDs (Some wg) callback s = Ok (rv, s1) →
  pendingCompletions s1 !! nextCompletion s =
    Some {| pc_version := version s1; pc_typeURL := typeURL;
            pc_remainingNodesResources :=
              gset_to_gmap (awaited None) (list_to_set nodeIDs) |} ∧
  completions s1 !! nextCompletion s =
    Some {| c_wg := wg; c_callback := callback; c_canceled := false; c_result := None |} ∧
  version s1 = (mutDelete typeURL resourceName (mutator s)).1.1.1 ∧
  trace s1 = trace s.
Proof.
  intros Hr. unfold Delete. rewrite Hr.
  destruct (mutDelete _ _ _) as [[[v updated] revert] st]. cbn.
  intros ->. cbn. case_bool_decide; [done|]. intros [= _ <-]. cbn.
  rewrite !lookup_insert_eq, foldl_insert_gset_to_gmap. done.
Qed.

Lemma ackOrNack_None v ackVersion detail :
  ackOrNack v ackVersion detail = None ↔ v ≤ ackVersion.
Proof.
  unfold ackOrNack. destruct (v <=? ackVersion) eqn:Hle.
  - by apply N.leb_le in Hle.
  - apply N.leb_gt in Hle. split; [done|lia].
Qed.

Lemma handle_calls_back s (a : AckMsg) c p e obj k :
  pendingCompletions s !! c = Some p →
  entryOutcome (msg_ackVersion a) (msg_nackVersion a) (msg_nodeIP a)
    (msg_resourceNames a) (msg_typeURL a) (msg_detail a) (completions s !! c) p = Some e →
  completions s !! c = Some obj → c_result obj = None → c_callback obj = Some k →
  EvCallback k e ∈ eventsSince s (handle s a).
Proof.
  intros Hp Hout Hobj Hres Hcb. unfold handle.
  rewrite HandleResourceVersionAck_eventsSince, list_elem_of_In, in_flat_map.
  exists (c, p). rewrite <- !list_elem_of_In. split; [by apply elem_of_map_to_list|].
  cbn. unfold entryEvents. rewrite Hout. unfold completionEvents.
  rewrite Hobj, Hres, Hcb. set_solver.
Qed.

Lemma cancel_spec s c obj :
  completions s !! c = Some obj →
  pendingCompletions (cancel c s) = pendingCompletions s ∧
  completions (cancel c s) !! c =
    Some {| c_wg := c_wg obj; c_callback := c_callback obj;
            c_canceled := true; c_result := c_result obj |} ∧
  trace (cancel c s) = trace s.
Proof.
  intros Hobj. unfold cancel. rewrite Hobj. cbn. by rewrite lookup_insert_eq.
Qed.

(** ** Completions that wait for no node *)

Lemma handleAll_empty_nodes s c v typeURL obj msgs :
  pendingCompletions s !! c =
    Some {| pc_version := v; pc_typeURL := typeURL; pc_remainingNodesResources := ∅ |} →
  completions s !! c = Some obj → c_canceled obj = false →
  pendingCompletions (handleAll s msgs) !! c =
    Some {| pc_version := v; pc_typeURL := typeURL; pc_remainingNodesResources := ∅ |} ∧
  completions (handleAll s msgs) !! c = Some obj ∧
  ∀ e, EvComplete c e ∉ eventsSince s (handleAll s msgs).
Proof.
  intros Hp Hobj Hcan.
  destruct (handleAll_quiet
    (λ s, pendingCompletions s !! c =
            Some {| pc_version := v; pc_typeURL := typeURL;
                    pc_remainingNodesResources := ∅ |} ∧
          completions s !! c = Some obj) c) with (msgs := msgs) (s := s)
    as ((Hp' & Hobj') & _ & Hev); [|done|done].
  clear -Hcan. intros s a [Hp Hobj].
  rewrite <- (gset_to_gmap_empty (awaited None)) in Hp.
  destruct (handle_miss s c v typeURL None ∅ a Hp) as (Hp1 & Hc1 & Hev).
  - by rewrite Completion_Err_lookup, Hobj.
  - intros [_ Hin]. set_solver.
  - rewrite Hp, gset_to_gmap_empty in Hp1. rewrite Hobj in Hc1.
    split; [by split|]. split; [by rewrite Hobj|done].
Qed.

(** C9: a changed Upsert or Delete that waits with no nodeIDs registers a
    pendingCompletion with no remaining node; no sequence of
    acknowledgements completes it or takes it away; once its context is
    canceled, the next acknowledgement drops it, still not completed. *)
Theorem empty_nodeIDs_never_completes s typeURL resourceName (resource : Resource)
    (wg : WaitGroup) (callback : option Callback) rv s1 :
  restoring s = false →
  ((mutUpsert typeURL resourceName resource (mutator s)).1.1.2 = true ∧
   Upsert typeURL resourceName resource [] (Some wg) callback s = Ok (rv, s1)) ∨
  ((mutDelete typeURL resourceName (mutator s)).1.1.2 = true ∧
   Delete typeURL resourceName [] (Some wg) callback s = Ok (rv, s1)) →
  let c := (AddCompletionWithCallback wg callback s).1 in
  ∃ p, pendingCompletions s1 !! c = Some p ∧
       pc_remainingNodesResources p = ∅ ∧
       ∀ msgs : list AckMsg,
         let s2 := handleAll s1 msgs in
         pendingCompletions s2 !! c = Some p ∧
         outcome c s2 = Some None ∧
         (∀ e, EvComplete c e ∉ eventsSince s1 s2) ∧
         Completion_Err c (cancel c s2) = true ∧
         ∀ a : AckMsg,
           let s3 := handle (cancel c s2) a in
           pendingCompletions s3 !! c = None ∧
           outcome c s3 = Some None ∧
           ∀ e, EvComplete c e ∉ eventsSince (cancel c s2) s3.
Proof.
  intros Hr Hcall. cbn zeta. cbn [AddCompletionWithCallback fst].
  assert (∃ v,
    pendingCompletions s1 !! nextCompletion s =
      Some {| pc_version := v; pc_typeURL := typeURL;
              pc_remainingNodesResources := ∅ |} ∧
    completions s1 !! nextCompletion s =
      Some {| c_wg := wg; c_callback := callback;
              c_canceled := false; c_result := None |}) as (v & Hp & Hobj).
  { destruct Hcall as [[Hupd Hcall]|[Hupd Hcall]].
    - destruct (Upsert_registers _ _ _ _ _ _ _ _ _ Hr Hupd Hcall) as (Hp & Hobj & _).
      cbn in Hp. rewrite gset_to_gmap_empty in Hp. eauto.
    - destruct (Delete_registers _ _ _ _ _ _ _ _ Hr Hupd Hcall) as (Hp & Hobj & _).
      cbn in Hp. rewrite gset_to_gmap_empty in Hp. eauto. }
  eexists. split; [exact Hp|]. split; [done|]. intros msgs.
  destruct (handleAll_empty_nodes s1 _ v typeURL _ msgs Hp Hobj eq_refl)
    as (Hp2 & Hobj2 & Hev2).
  destruct (cancel_spec _ _ _ Hobj2) as (Hpc & Hoc & _). cbn in Hoc.
  assert (Completion_Err (nextCompletion s) (cancel (nextCompletion s) (handleAll s1 msgs))
          = true) as Herr.
  { by rewrite Completion_Err_lookup, Hoc. }
  split; [done|]. split; [unfold outcome; by rewrite Hobj2|].
  split; [done|]. split; [done|]. intros a.
  rewrite <- Hpc in Hp2.
  destruct (handle_canceled _ a _ _ Hp2 Herr) as (Hp3 & Hc3 & Hev3).
  split; [done|]. split; [|done]. unfold outcome. by rewrite Hc3, Hoc.
Qed.

(** ** Full coverage *)

Lemma coveredNodes_elem v typeURL name (msgs : list AckMsg) n :
  n ∈ coveredNodes v typeURL name msgs ↔
  ∃ a, a ∈ msgs ∧ msg_nodeIP a = n ∧ covers v typeURL name a = true.
Proof.
  induction msgs as [|m msgs IH]; cbn.
  { split; [set_solver|]. intros (a & Hin & _). by apply not_elem_of_nil in Hin. }
  rewrite elem_of_union, IH. split.
  - intros [Hm|(a & Hin & Hn & Hcov)].
    + destruct (covers v typeURL name m) eqn:Hcov; [|set_solver].
      apply elem_of_singleton in Hm as ->. exists m.
      split; [apply list_elem_of_here|done].
    + exists a. split; [by apply list_elem_of_further|done].
  - intros (a & Hin & Hn & Hcov). apply elem_of_cons in Hin as [->|Hin].
    + left. rewrite Hcov. by apply elem_of_singleton.
    + right. eauto.
Qed.

(** Once every node has been covered, some message was the one that
    covered the last of them. *)
Lemma resolvedWith_exists v typeURL name (msgs : list AckMsg) :
  ∀ nodes : gset string,
  nodes ≠ ∅ → nodes ⊆ coveredNodes v typeURL name msgs →
  ∃ a, resolvedWith v typeURL name nodes msgs a.
Proof.
  induction msgs as [|m msgs IH]; intros nodes Hne Hsub.
  { exfalso. apply Hne. cbn in Hsub. set_solver. }
  setoid_rewrite resolvedWith_cons. cbn in Hsub.
  destruct (decide (nodes ∖ (if covers v typeURL name m then {[msg_nodeIP m]} else ∅) = ∅))
    as [Hlast|Hmore].
  - destruct (covers v typeURL name m) eqn:Hcov.
    + exists m. left. split; [done|]. split; [|done].
      apply last_node; [|done].
      destruct (decide (msg_nodeIP m ∈ nodes)) as [|Hnin]; [done|].
      exfalso. apply Hne. rewrite <- Hlast. set_solver.
    + exfalso. apply Hne. rewrite <- Hlast. set_solver.
  - destruct (IH _ Hmore) as (a & Hres); [set_solver|]. exists a. by right.
Qed.

Lemma resolvedWith_covers_all v typeURL name (nodes : gset string)
    (msgs : list AckMsg) a :
  resolvedWith v typeURL name nodes msgs a →
  a ∈ msgs ∧ msg_nodeIP a ∈ nodes ∧ covers v typeURL name a = true ∧
  ∀ n, n ∈ nodes → ∃ b, b ∈ msgs ∧ msg_nodeIP b = n ∧ covers v typeURL name b = true.
Proof.
  intros (pre & post & -> & Hrem & Hcov).
  assert (a ∈ pre ++ a :: post) as Hin.
  { apply elem_of_app. right. apply list_elem_of_here. }
  split; [done|]. split; [set_solver|]. split; [done|].
  intros n Hn. destruct (decide (n = msg_nodeIP a)) as [->|Hne]; [eauto|].
  assert (n ∈ coveredNodes v typeURL name pre) as Hc.
  { destruct (decide (n ∈ coveredNodes v typeURL name pre)) as [|Hnc]; [done|].
    exfalso. apply Hne.
    assert (n ∈ ({[msg_nodeIP a]} : gset string)) as Hs; [|by apply elem_of_singleton in Hs].
    rewrite <- Hrem. set_solver. }
  apply coveredNodes_elem in Hc as (b & Hb & Hnb & Hcb).
  exists b. split; [|done]. apply elem_of_app. by left.
Qed.

(** Over well-formed messages among which no targeted node reports a NACK
    of the version, a completion with one shape for all nodes ends with nil
    exactly when every node has acked the version. *)
Lemma coverage_iff c v typeURL name (nodeIDs : list string) (msgs : list AckMsg) s obj :
  pendingCompletions s !! c =
    Some {| pc_version := v; pc_typeURL := typeURL;
            pc_remainingNodesResources :=
              gset_to_gmap (awaited name) (list_to_set nodeIDs) |} →
  completions s !! c = Some obj → c_canceled obj = false → c_result obj = None →
  nodeIDs ≠ [] →
  (∀ a, a ∈ msgs → msg_ackVersion a ≤ msg_nackVersion a) →
  (∀ a, a ∈ msgs → msg_nodeIP a ∈ nodeIDs → covers v typeURL name a = true →
        v ≤ msg_ackVersion a) →
  outcome c (handleAll s msgs) = Some (Some None) ↔
  ∀ n, n ∈ nodeIDs →
    ∃ a, a ∈ msgs ∧ msg_nodeIP a = n ∧ msg_typeURL a = typeURL ∧
         v ≤ msg_ackVersion a ∧
         match name with Some r => r ∈ msg_resourceNames a | None => True end.
Proof.
  intros Hp Hobj Hcan Hres Hne Hwf Hnonack.
  rewrite (resolution_char c v typeURL name msgs _ _ _ Hp Hobj Hcan Hres).
  assert (∀ a, covers v typeURL name a = true →
               msg_typeURL a = typeURL ∧
               match name with Some r => r ∈ msg_resourceNames a | None => True end)
    as Hcovers.
  { intros a. unfold covers. intros [[HT _]%andb_prop Hname]%andb_prop.
    apply bool_decide_eq_true in HT. split; [done|].
    destruct name; [by apply bool_decide_eq_true in Hname|done]. }
  split.
  - intros (a & Hr & Hnil) n Hn.
    apply resolvedWith_covers_all in Hr as (_ & _ & _ & Hall).
    destruct (Hall n) as (b & Hb & Hnb & Hcb); [by apply elem_of_list_to_set|].
    destruct (Hcovers b Hcb) as [HT Hname].
    exists b. repeat (split; [done|]). split; [|done].
    apply Hnonack; [done| |done]. by rewrite Hnb.
  - intros Hall.
    destruct (resolvedWith_exists v typeURL name msgs (list_to_set nodeIDs)) as (a & Hr).
    + destruct nodeIDs as [|n0 l]; [done|]. set_solver.
    + intros n Hn%elem_of_list_to_set.
      destruct (Hall n Hn) as (b & Hb & Hnb & HT & Hle & Hname).
      apply coveredNodes_elem. exists b. split; [done|]. split; [done|].
      unfold covers. rewrite bool_decide_true by done.
      assert ((v <=? msg_nackVersion b) = true) as ->.
      { apply N.leb_le. specialize (Hwf b Hb). lia. }
      destruct name; [by rewrite bool_decide_true|done].
    + exists a. split; [done|]. symmetry. apply ackOrNack_None.
      destruct (resolvedWith_covers_all _ _ _ _ _ _ Hr) as (Ha & Hna & Hca & _).
      apply Hnonack; [done| |done]. by apply elem_of_list_to_set in Hna.
Qed.

(** C1, amended: after a changed Upsert of [resourceName] that waits on a
    non-empty list of nodes, over any sequence of well-formed
    acknowledgements (ackVersion at most nackVersion) in which no targeted
    node reports a NACK of the version (a message that counts, its type URL
    being the one of the Upsert, its nackVersion reaching the version and
    [resourceName] being listed, has an ackVersion that reaches the version
    too), the completion is completed with nil exactly when every targeted
    node has sent a message for that type URL with an ackVersion of at
    least the version that lists [resourceName].  In any sequence the
    completion gets no outcome before every targeted node has sent a
    message that counts.  With two target nodes, an ack of the version by
    the first leaves the completion pending, and the same ack by the second
    completes it with nil and runs the callback with nil.  After a changed
    Delete the same holds without the condition on the listed names.  What
    the outcome is when a targeted node other than the last one reports a
    NACK is not part of this statement. *)
Theorem full_coverage s typeURL resourceName (resource : Resource)
    (nodeIDs : list string) (wg : WaitGroup) (callback : option Callback) rv s1 :
  restoring s = false →
  (mutUpsert typeURL resourceName resource (mutator s)).1.1.2 = true →
  Upsert typeURL resourceName resource nodeIDs (Some wg) callback s = Ok (rv, s1) →
  let c := (AddCompletionWithCallback wg callback s).1 in
  let v := version s1 in
  (∀ msgs : list AckMsg,
     nodeIDs ≠ [] →
     (∀ a, a ∈ msgs → msg_ackVersion a ≤ msg_nackVersion a) →
     (∀ a, a ∈ msgs → msg_nodeIP a ∈ nodeIDs →
           covers v typeURL (Some resourceName) a = true → v ≤ msg_ackVersion a) →
     (outcome c (handleAll s1 msgs) = Some (Some None) ↔
      everyNodeAcked v typeURL resourceName nodeIDs msgs)) ∧
  (∀ (msgs : list AckMsg) e,
     outcome c (handleAll s1 msgs) = Some (Some e) →
     ∀ n, n ∈ nodeIDs →
       ∃ a, a ∈ msgs ∧ msg_nodeIP a = n ∧
            covers v typeURL (Some resourceName) a = true) ∧
  (∀ n1 n2, nodeIDs = [n1; n2] → n1 ≠ n2 →
     let sa := HandleResourceVersionAck v v n1 [resourceName] typeURL EmptyString s1 in
     let sb := HandleResourceVersionAck v v n2 [resourceName] typeURL EmptyString sa in
     is_Some (pendingCompletions sa !! c) ∧ outcome c sa = Some None ∧
     (∀ e, EvComplete c e ∉ eventsSince s1 sa) ∧
     pendingCompletions sb !! c = None ∧ outcome c sb = Some (Some None) ∧
     EvComplete c None ∈ eventsSince sa sb ∧
     (∀ k, callback = Some k → EvCallback k None ∈ eventsSince sa sb)) ∧
  (∀ s' rv' s1',
     restoring s' = false →
     (mutDelete typeURL resourceName (mutator s')).1.1.2 = true →
     Delete typeURL resourceName nodeIDs (Some wg) callback s' = Ok (rv', s1') →
     ∀ msgs : list AckMsg,
       nodeIDs ≠ [] →
       (∀ a, a ∈ msgs → msg_ackVersion a ≤ msg_nackVersion a) →
       (∀ a, a ∈ msgs → msg_nodeIP a ∈ nodeIDs →
             covers (version s1') typeURL None a = true →
             version s1' ≤ msg_ackVersion a) →
       (outcome (AddCompletionWithCallback wg callback s').1 (handleAll s1' msgs)
          = Some (Some None) ↔
        ∀ n, n ∈ nodeIDs →
          ∃ a, a ∈ msgs ∧ msg_nodeIP a = n ∧ msg_typeURL a = typeURL ∧
               version s1' ≤ msg_ackVersion a)).
Proof.
  intros Hr Hupd Hcall. cbn zeta. cbn [AddCompletionWithCallback fst].
  destruct (Upsert_registers _ _ _ _ _ _ _ _ _ Hr Hupd Hcall) as (Hp & Hobj & _).
  split; [|split; [|split]].
  - intros msgs Hne Hwf Hnonack.
    rewrite (coverage_iff _ _ _ (Some resourceName) nodeIDs msgs _ _
               Hp Hobj eq_refl eq_refl Hne Hwf Hnonack).
    unfold everyNodeAcked. done.
  - intros msgs e Hout n Hn.
    apply (resolution_char _ _ _ (Some resourceName) msgs _ _ _
             Hp Hobj eq_refl eq_refl) in Hout as (a & Hres & _).
    apply resolvedWith_covers_all in Hres as (_ & _ & _ & Hall).
    apply Hall. by apply elem_of_list_to_set.
  - intros n1 n2 -> Hne.
    set (a1 := {| msg_ackVersion := version s1; msg_nackVersion := version s1;
                  msg_nodeIP := n1; msg_resourceNames := [resourceName];
                  msg_typeURL := typeURL; msg_detail := EmptyString |}).
    set (a2 := {| msg_ackVersion := version s1; msg_nackVersion := version s1;
                  msg_nodeIP := n2; msg_resourceNames := [resourceName];
                  msg_typeURL := typeURL; msg_detail := EmptyString |}).
    change (HandleResourceVersionAck (version s1) (version s1) n1 [resourceName]
              typeURL EmptyString s1) with (handle s1 a1).
    change (HandleResourceVersionAck (version s1) (version s1) n2 [resourceName]
              typeURL EmptyString (handle s1 a1)) with (handle (handle s1 a1) a2).
    assert (∀ a, msg_typeURL a = typeURL → msg_nackVersion a = version s1 →
                 msg_resourceNames a = [resourceName] →
                 covers (version s1) typeURL (Some resourceName) a = true) as Hcov.
    { intros a HT Hn Hnames. unfold covers.
      rewrite HT, Hn, Hnames, N.leb_refl, !bool_decide_true; [done| |done].
      apply list_elem_of_here. }
    assert (Completion_Err (nextCompletion s) s1 = false) as Herr.
    { by rewrite Completion_Err_lookup, Hobj. }
    pose proof (handle_hit s1 _ _ _ _ _ a1 Hp Herr (Hcov a1 eq_refl eq_refl eq_refl))
      as Hstep1.
    cbn [msg_nodeIP a1] in Hstep1.
    rewrite decide_False in Hstep1; cycle 1.
    { intros Hempty. apply (not_elem_of_empty (C:=gset string) n2).
      rewrite <- Hempty. set_solver. }
    destruct Hstep1 as (Hp1 & Hc1 & Hev1); [set_solver|].
    assert (Completion_Err (nextCompletion s) (handle s1 a1) = false) as Herr1.
    { by rewrite Completion_Err_lookup, Hc1, Hobj. }
    pose proof (handle_hit _ _ _ _ _ _ a2 Hp1 Herr1 (Hcov a2 eq_refl eq_refl eq_refl))
      as Hstep2.
    cbn [msg_nodeIP msg_ackVersion msg_detail a2] in Hstep2.
    assert (ackOrNack (version s1) (version s1) EmptyString = None) as Hnil.
    { by apply ackOrNack_None. }
    rewrite Hnil in Hstep2.
    rewrite decide_True in Hstep2 by set_solver.
    destruct Hstep2 as (Hp2 & Hc2 & Hev2); [set_solver|].
    split; [by rewrite Hp1|]. split; [unfold outcome; by rewrite Hc1, Hobj|].
    split; [done|]. split; [done|].
    split; [unfold outcome; by rewrite Hc2, Hc1, Hobj|]. split; [done|].
    intros k ->.
    eapply (handle_calls_back _ a2); [exact Hp1| |by rewrite Hc1| |]; [|done|done].
    unfold entryOutcome. rewrite <- Completion_Err_lookup, Herr1.
    rewrite (ackPending_hit _ _ _ _ a2 (Hcov a2 eq_refl eq_refl eq_refl)) by set_solver.
    cbn. rewrite decide_True by set_solver. by rewrite Hnil.
  - intros s' rv' s1' Hr' Hupd' Hcall' msgs Hne Hwf Hnonack.
    destruct (Delete_registers _ _ _ _ _ _ _ _ Hr' Hupd' Hcall') as (Hp' & Hobj' & _).
    rewrite (coverage_iff _ _ _ None nodeIDs msgs _ _
               Hp' Hobj' eq_refl eq_refl Hne Hwf Hnonack).
    split; intros Hall n Hn.
    + destruct (Hall n Hn) as (a & ? & ? & ? & ? & _). eauto 10.
    + destruct (Hall n Hn) as (a & ? & ? & ? & ?). eauto 10.
Qed.

(** ** UseCurrent *)

(** C7, amended: UseCurrent leaves the state as it is when the WaitGroup is
    nil, when restoring, or when every node in [nodeIDs] has a recorded
    acked version at least [version], the field of the wrapper (the version
    the mutator returned last, 0 on a new wrapper); otherwise it registers,
    under the completion the WaitGroup returns, one pendingCompletion for
    that [version] and [typeURL] whose entry is nil for exactly the nodes
    in [nodeIDs]. *)
Theorem UseCurrent_registers s typeURL (nodeIDs : list string) (wg : option WaitGroup) :
  (wg = None ∨ restoring s = true ∨
   (∀ n, n ∈ nodeIDs → ∃ a, ackedVersions s !! n = Some a ∧ version s ≤ a) →
   UseCurrent typeURL nodeIDs wg s = s) ∧
  (∀ g n, wg = Some g → restoring s = false → n ∈ nodeIDs →
     (ackedVersions s !! n = None ∨
      ∃ a, ackedVersions s !! n = Some a ∧ a < version s) →
     let s' := UseCurrent typeURL nodeIDs wg s in
     let c := (AddCompletionWithCallback g None s).1 in
     ∃ p,
       pendingCompletions s' = <[c := p]> (pendingCompletions s) ∧
       pc_version p = version s ∧ pc_typeURL p = typeURL ∧
       (∀ node, pc_remainingNodesResources p !! node =
                if decide (node ∈ nodeIDs) then Some None else None) ∧
       version s' = version s ∧ mutator s' = mutator s ∧
       ackedVersions s' = ackedVersions s).
Proof.
  split.
  - intros [->|[Hr|Hall]]; [done|..]; unfold UseCurrent.
    + rewrite Hr. by destruct wg.
    + destruct wg as [g|]; [|done]. destruct (restoring s); [done|]. cbn.
      unfold useCurrent, currentVersionAcked.
      apply currentVersionAcked_from_true in Hall. by rewrite Hall.
  - intros g n -> Hr Hn Hlow. cbn. unfold UseCurrent. rewrite Hr. cbn.
    unfold useCurrent, currentVersionAcked.
    assert (currentVersionAcked_from (ackedVersions s) (version s) nodeIDs = false) as ->.
    { apply not_true_is_false. rewrite currentVersionAcked_from_true.
      intros Hall. destruct (Hall n Hn) as (a & Ha & Hle).
      destruct Hlow as [Hnone|(a' & Ha' & Hlt)]; [congruence|].
      rewrite Ha in Ha'. injection Ha' as <-. lia. }
    cbn. eexists. split; [reflexivity|]. cbn. repeat split.
    intros node. by rewrite foldl_insert_lookup, lookup_empty.
Qed.

(** ** Revert functions *)

(** C8: the revert function of a changed Upsert, called with a non-nil
    completion, runs the store's revert function, records the version it
    returns, and registers under that completion a pendingCompletion for
    that version and [typeURL] whose entries are nil for the nodes of the
    Upsert. *)
Theorem Upsert_revert_any_ack s typeURL resourceName (resource : Resource)
    (nodeIDs : list string) (wg : option WaitGroup) (callback : option Callback)
    v (revert : ResourceMutatorRevertFunc Store) st rv s1 :
  mutUpsert typeURL resourceName resource (mutator s) = ((v, true, Some revert), st) →
  Upsert typeURL resourceName resource nodeIDs wg callback s = Ok (rv, s1) →
  ∀ (c : Completion) s2,
    let s3 := rv (Some c) s2 in
    mutator s3 = (revert (mutator s2)).2 ∧
    version s3 = (revert (mutator s2)).1.1 ∧
    (∃ p,
       pendingCompletions s3 = <[c := p]> (pendingCompletions s2) ∧
       pc_version p = (revert (mutator s2)).1.1 ∧
       pc_typeURL p = typeURL ∧
       ∀ node, pc_remainingNodesResources p !! node =
               if decide (node ∈ nodeIDs) then Some None else None) ∧
    ackedVersions s3 = ackedVersions s2 ∧ restoring s3 = restoring s2 ∧
    completions s3 = completions s2 ∧ trace s3 = trace s2.
Proof.
  intros Hmut Hup c s2. unfold Upsert in Hup. rewrite Hmut in Hup. cbn in Hup.
  assert (rv = revertChange (Some revert) typeURL nodeIDs) as ->.
  { destruct wg as [g|], (restoring s); cbn in Hup; try by injection Hup.
    destruct (bool_decide _) in Hup; [done|]. by injection Hup. }
  cbn. destruct (revert (mutator s2)) as [[v2 b] st2]. cbn.
  repeat split. eexists. split; [reflexivity|]. cbn. repeat split.
  intros node. by rewrite foldl_insert_lookup, lookup_empty.
Qed.

(** C10: when the wrapped mutator reports no change, the revert function
    that Upsert or Delete returns does nothing, whatever completion it is
    given: the state after it is the state before it, so nothing is
    registered, and a completion that is not pending is not completed by
    any later acknowledgement. *)
Theorem unchanged_revert_is_noop s typeURL resourceName (resource : Resource)
    (nodeIDs : list string) (wg : option WaitGroup) (callback : option Callback) :
  (∀ rv s1,
     (mutUpsert typeURL resourceName resource (mutator s)).1.1.2 = false →
     Upsert typeURL resourceName resource nodeIDs wg callback s = Ok (rv, s1) →
     ∀ completion s2, rv completion s2 = s2) ∧
  (∀ rv s1,
     (mutDelete typeURL resourceName (mutator s)).1.1.2 = false →
     Delete typeURL resourceName nodeIDs wg callback s = Ok (rv, s1) →
     ∀ completion s2, rv completion s2 = s2) ∧
  (∀ (c : Completion) s2 (msgs : list AckMsg),
     pendingCompletions s2 !! c = None →
     pendingCompletions (handleAll s2 msgs) !! c = None ∧
     completions (handleAll s2 msgs) !! c = completions s2 !! c ∧
     ∀ e, EvComplete c e ∉ eventsSince s2 (handleAll s2 msgs)).
Proof.
  split; [|split]; [| |intros c s2 msgs; apply handleAll_not_pending];
    intros rv s1 Hno Hcall completion s2.
  - unfold Upsert in Hcall.
    destruct (mutUpsert _ _ _ _) as [[[v updated] revert] st]. cbn in Hno. subst updated.
    cbn in Hcall. by injection Hcall as <- _.
  - unfold Delete in Hcall.
    destruct (mutDelete _ _ _) as [[[v updated] revert] st]. cbn in Hno. subst updated.
    cbn in Hcall. by injection Hcall as <- _.
Qed.

End Proofs.

(** * The scenario, run *)

Example demoUpsert_version : version demo1 = 5.
Proof. reflexivity. Qed.

Example demoUpsert_ok : demoUpsert = Ok (revertOf demoUpsert, demo1).
Proof. reflexivity. Qed.

Example demoUpsert_changed : (mutUpsert "cluster" "bar/foo" "X" (mutator demo0)).1.1.2 = true.
Proof. reflexivity. Qed.

(** Every node ends up acking version 5, but the second one had first
    failed to apply it when it was the last node awaited: the completion
    was completed with that failure.  And with no node to wait for, every
    node has acked, yet the completion is never completed. *)
Lemma full_coverage_counterexample :
  (everyNodeAcked 5 "cluster" "bar/foo" demoNodes
     [demoAck "10.0.0.1"; demoNack "10.0.0.2"; demoAck "10.0.0.2"] ∧
   outcome 1%positive
     (handleAll demo1 [demoAck "10.0.0.1"; demoNack "10.0.0.2"; demoAck "10.0.0.2"])
     = Some (Some (Some {| Err := ErrNackReceived; Detail := "bad listener" |}))) ∧
  (everyNodeAcked 5 "cluster" "bar/foo" [] [demoAck "10.0.0.1"] ∧
   version (stateOf demoUpsertNoNodes) = 5 ∧
   outcome 1%positive (handleAll (stateOf demoUpsertNoNodes) [demoAck "10.0.0.1"])
     = Some None).
Proof.
  split; split.
  - intros n Hn. apply elem_of_cons in Hn as [->|Hn].
    + exists (demoAck "10.0.0.1"). split; [apply list_elem_of_here|].
      repeat split; [cbn; lia|apply list_elem_of_here].
    + apply list_elem_of_singleton in Hn as ->.
      exists (demoAck "10.0.0.2"). split; [do 2 apply list_elem_of_further; apply list_elem_of_here|].
      repeat split; [cbn; lia|apply list_elem_of_here].
  - reflexivity.
  - intros n Hn. by apply not_elem_of_nil in Hn.
  - split; reflexivity.
Qed.

(** What the code does when the first node fails to apply version 5 and the
    second applies it: the second message removes the last node and its
    ackVersion decides, so the completion is completed with nil and the
    detail of the first node is not handed over. *)
Example nack_then_ack_run :
  outcome 1%positive (handleAll demo1 [demoNack "10.0.0.1"; demoAck "10.0.0.2"])
    = Some (Some None) ∧
  ¬ everyNodeAcked 5 "cluster" "bar/foo" demoNodes
      [demoNack "10.0.0.1"; demoAck "10.0.0.2"].
Proof.
  split; [reflexivity|].
  intros Hall. destruct (Hall "10.0.0.1") as (a & Hin & Hnode & _ & Hle & _).
  { apply list_elem_of_here. }
  apply elem_of_cons in Hin as [->|Hin]; [cbn in Hle; lia|].
  apply list_elem_of_singleton in Hin as ->. discriminate Hnode.
Qed.

Lemma full_coverage_witness :
  let c := 1%positive in
  let sa := HandleResourceVersionAck 5 5 "10.0.0.1" ["bar/foo"] "cluster" EmptyString demo1 in
  let sb := HandleResourceVersionAck 5 5 "10.0.0.2" ["bar/foo"] "cluster" EmptyString sa in
  is_Some (pendingCompletions sa !! c) ∧ outcome c sa = Some None ∧
  (∀ e, EvComplete c e ∉ eventsSince demo1 sa) ∧
  pendingCompletions sb !! c = None ∧ outcome c sb = Some (Some None) ∧
  EvComplete c None ∈ eventsSince sa sb ∧
  (∀ k, Some demoCallback = Some k → EvCallback k None ∈ eventsSince sa sb).
Proof.
  exact (proj1 (proj2 (proj2
    (full_coverage demo0 "cluster" "bar/foo" "X" demoNodes demoWG (Some demoCallback)
       (revertOf demoUpsert) demo1 eq_refl eq_refl eq_refl)))
    "10.0.0.1" "10.0.0.2" eq_refl ltac:(discriminate)).
Defined.

Lemma nack_resolution_witness :
  let e := Some {| Err := ErrNackReceived; Detail := "bad listener" |} in
  EvComplete 1%positive e ∈ eventsSince demo2 (handle demo2 (demoNack "10.0.0.2")) ↔
    "cluster" = "cluster" ∧ 5 ≤ 5 ∧
    (∃ r, pc_remainingNodesResources demoPending2 !! "10.0.0.2" = Some r ∧
          acksAll r ["bar/foo"]) ∧
    (∀ n, n ≠ "10.0.0.2" → pc_remainingNodesResources demoPending2 !! n = None) ∧
    e = ackOrNack 5 4 "bad listener".
Proof.
  exact (proj1 (nack_resolution demo2 1%positive demoPending2 4 5 "10.0.0.2"
                  ["bar/foo"] "cluster" "bad listener"
                  (Some {| Err := ErrNackReceived; Detail := "bad listener" |})
                  eq_refl eq_refl)).
Defined.

Lemma ackedVersions_monotone_witness :
  ∃ v', ackedVersions (handleAll demo2 [demoNack "10.0.0.1"; demoAck "10.0.0.2"])
          !! "10.0.0.1" = Some v' ∧ 5 ≤ v'.
Proof.
  exact (proj1 (ackedVersions_monotone demo2 [demoNack "10.0.0.1"; demoAck "10.0.0.2"]
                  (demoNack "10.0.0.1") "10.0.0.1") 5 eq_refl).
Defined.

(** A canceled completion for "cluster" is dropped by an acknowledgement
    for "listener": it is not kept until an acknowledgement of its own type
    URL arrives. *)
Lemma canceled_dropped_counterexample :
  pendingCompletions demoCanceled !! 1%positive = Some demoPending1 ∧
  Completion_Err 1%positive demoCanceled = true ∧
  msg_typeURL demoOtherAck ≠ pc_typeURL demoPending1 ∧
  pendingCompletions (handle demoCanceled demoOtherAck) !! 1%positive = None.
Proof. repeat split. discriminate. Qed.

Lemma canceled_dropped_witness :
  let s' := handleAll demoCanceled
              [demoOtherAck; demoAck "10.0.0.1"; demoAck "10.0.0.2"] in
  pendingCompletions (handle demoCanceled demoOtherAck) !! 1%positive = None ∧
  pendingCompletions s' !! 1%positive = None ∧
  completions s' !! 1%positive = completions demoCanceled !! 1%positive ∧
  ∀ e, EvComplete 1%positive e ∉ eventsSince demoCanceled s'.
Proof.
  exact (proj1 (canceled_dropped demoCanceled 1%positive demoPending1 eq_refl eq_refl)
           demoOtherAck [demoAck "10.0.0.1"; demoAck "10.0.0.2"]).
Defined.

Lemma restoring_bypass_witness :
  restoring demoRestoring = true ∧
  (∃ rv s',
     Upsert "cluster" "bar/foo" "X" demoNodes (Some demoWG) (Some demoCallback)
       demoRestoring = Ok (rv, s') ∧
     pendingCompletions s' = pendingCompletions demoRestoring ∧
     eventsSince demoRestoring s' = [EvCallback demoCallback None]) ∧
  UseCurrent "cluster" demoNodes (Some demoWG) demoRestoring = demoRestoring.
Proof.
  split; [reflexivity|].
  destruct (restoring_bypass demoRestoring "cluster" "bar/foo" "X" demoNodes demoWG
              (Some demoCallback) eq_refl)
    as ((rv & s' & Hup & Hp & _ & _ & _ & Hev) & _ & Huse).
  split; [|exact Huse]. exists rv, s'. split; [exact Hup|]. split; [exact Hp|exact Hev].
Defined.

Lemma reuse_is_fatal_witness :
  ∃ msg, Upsert "cluster" "bar/baz" "Y" demoNodes (Some demoWG) None demoReuse = Fatal msg.
Proof.
  exact (proj1 (reuse_is_fatal demoReuse "cluster" "bar/baz" "Y" demoNodes demoWG None
                  eq_refl (ex_intro _ demoPending1 eq_refl)) eq_refl).
Defined.

(** The version UseCurrent compares with is the field [version] of the
    wrapper, not the version of the store.  Around a store at version 4 a
    new wrapper has version 0: a node that has acked 2 counts as up to
    date, and for a node without a record the entry registered is for
    version 0. *)
Lemma UseCurrent_registers_counterexample :
  cache_version (mutator demoEarly) = 4 ∧
  ackedVersions demoEarly !! "10.0.0.1" = Some 2 ∧
  UseCurrent "cluster" ["10.0.0.1"] (Some demoWG) demoEarly = demoEarly ∧
  cache_version (mutator demo0) = 4 ∧
  ackedVersions demo0 !! "10.0.0.1" = None ∧
  pc_version <$>
    pendingCompletions (UseCurrent "cluster" ["10.0.0.1"] (Some demoWG) demo0) !! 1%positive
    = Some 0.
Proof. repeat split. Qed.

Lemma UseCurrent_registers_witness :
  UseCurrent "cluster" demoNodes None demo1 = demo1 ∧
  ∃ p, pendingCompletions (UseCurrent "cluster" demoNodes (Some demoWG) demo1)
         = <[2%positive := p]> (pendingCompletions demo1) ∧
       pc_version p = 5 ∧ pc_typeURL p = "cluster" ∧
       ∀ node, pc_remainingNodesResources p !! node =
               if decide (node ∈ demoNodes) then Some None else None.
Proof.
  destruct (UseCurrent_registers demo1 "cluster" demoNodes None) as [Hnil _].
  destruct (UseCurrent_registers demo1 "cluster" demoNodes (Some demoWG)) as [_ Hreg].
  split; [exact (Hnil (or_introl eq_refl))|].
  destruct (Hreg demoWG "10.0.0.1" eq_refl eq_refl (list_elem_of_here _ _)
              (or_introl eq_refl)) as (p & Hp & Hv & HT & Hrem & _).
  exists p. split; [exact Hp|]. split; [exact Hv|]. split; [exact HT|exact Hrem].
Defined.

Lemma Upsert_revert_any_ack_witness :
  let s3 := revertOf demoUpsert (Some 9%positive) demo2 in
  version s3 = 6 ∧
  ∃ p, pendingCompletions s3 = <[9%positive := p]> (pendingCompletions demo2) ∧
       pc_version p = 6 ∧ pc_typeURL p = "cluster" ∧
       ∀ node, pc_remainingNodesResources p !! node =
               if decide (node ∈ demoNodes) then Some None else None.
Proof.
  assert (mutUpsert "cluster" "bar/foo" "X" (mutator demo0) =
          ((5, true, Some (cacheRestore ("cluster", "bar/foo") None)), mutator demo1))
    as Hmut by reflexivity.
  assert (Upsert "cluster" "bar/foo" "X" demoNodes (Some demoWG) (Some demoCallback) demo0
          = Ok (revertOf demoUpsert, demo1)) as Hup by reflexivity.
  destruct (Upsert_revert_any_ack demo0 "cluster" "bar/foo" "X" demoNodes
              (Some demoWG) (Some demoCallback) 5
              (cacheRestore ("cluster", "bar/foo") None) (mutator demo1)
              (revertOf demoUpsert) demo1 Hmut Hup 9%positive demo2)
    as (_ & Hv & Hp & _).
  split; [exact Hv|exact Hp].
Defined.

Lemma empty_nodeIDs_never_completes_witness :
  let msgs := [demoAck "10.0.0.1"; demoNack "10.0.0.2"; demoAck "10.0.0.2"] in
  is_Some (pendingCompletions (handleAll (stateOf demoUpsertNoNodes) msgs) !! 1%positive) ∧
  outcome 1%positive (handleAll (stateOf demoUpsertNoNodes) msgs) = Some None.
Proof.
  intros msgs.
  assert ((mutUpsert "cluster" "bar/foo" "X" (mutator demo0)).1.1.2 = true ∧
          Upsert "cluster" "bar/foo" "X" [] (Some demoWG) (Some demoCallback) demo0 =
          Ok (revertOf demoUpsertNoNodes, stateOf demoUpsertNoNodes)) as Hup
    by (split; reflexivity).
  destruct (empty_nodeIDs_never_completes demo0 "cluster" "bar/foo" "X" demoWG
              (Some demoCallback) (revertOf demoUpsertNoNodes) (stateOf demoUpsertNoNodes)
              eq_refl (or_introl Hup))
    as (p & _ & _ & Hall).
  destruct (Hall msgs) as (Hp & Hout & _).
  split; [exists p; exact Hp|exact Hout].
Defined.

Lemma unchanged_revert_is_noop_witness :
  revertOf demoUpsertAgain (Some 9%positive) demo2 = demo2.
Proof.
  exact (proj1 (unchanged_revert_is_noop demo1 "cluster" "bar/foo" "X" demoNodes
                  (Some demoWG) (Some demoCallback))
           (revertOf demoUpsertAgain) (stateOf demoUpsertAgain) eq_refl eq_refl
           (Some 9%positive) demo2).
Defined.

(** * Further properties of the wrapper *)

Section Further.

Context {Store Resource : Type} `{!ResourceMutator Store Resource}.

Implicit Types (s : State Store) (c comp : Completion) (p pending : pendingCompletion).
Implicit Types (o : option CompletionObj) (a : AckMsg).

Lemma State_eq s s' :
  mutator s = mutator s' → version s = version s' →
  ackedVersions s = ackedVersions s' →
  pendingCompletions s = pendingCompletions s' →
  restoring s = restoring s' → completions s = completions s' →
  nextCompletion s = nextCompletion s' → trace s = trace s' → s = s'.
Proof. destruct s, s'. cbn. by intros -> -> -> -> -> -> -> ->. Qed.

(** ** Acknowledgements and the restoring flag *)

Lemma Completion_Complete_set_restoring b comp err s :
  Completion_Complete comp err (set_restoring b s) =
  set_restoring b (Completion_Complete comp err s).
Proof.
  unfold Completion_Complete, call. cbn.
  destruct (completions s !! comp) as [obj|]; [|done].
  destruct (c_result obj); [done|]. by destruct (c_callback obj).
Qed.

Lemma ackLoop_set_restoring b ackVersion nackVersion nodeIP
    (resourceNames : list string) typeURL detail
    (l : list (Completion * pendingCompletion)) :
  ∀ rem s,
  foldl (ackLoopBody ackVersion nackVersion nodeIP resourceNames typeURL detail)
        (rem, set_restoring b s) l =
  let '(rem', s') :=
    foldl (ackLoopBody ackVersion nackVersion nodeIP resourceNames typeURL detail)
          (rem, s) l in
  (rem', set_restoring b s').
Proof.
  induction l as [|[c0 p0] l IH]; intros rem s; [done|].
  cbn [foldl].
  assert (ackLoopBody ackVersion nackVersion nodeIP resourceNames typeURL detail
            (rem, set_restoring b s) (c0, p0) =
          let '(rem1, s1) :=
            ackLoopBody ackVersion nackVersion nodeIP resourceNames typeURL detail
              (rem, s) (c0, p0) in
          (rem1, set_restoring b s1)) as ->.
  { unfold ackLoopBody.
    change (Completion_Err c0 (set_restoring b s)) with (Completion_Err c0 s).
    destruct (Completion_Err c0 s); [done|].
    destruct (ackPending _ _ _ _ _ _ p0) as [p' [[pe|]|]]; [| |done].
    - change (emit (EvIncreaseNACK typeURL) (set_restoring b s))
        with (set_restoring b (emit (EvIncreaseNACK typeURL) s)).
      by rewrite Completion_Complete_set_restoring.
    - change (emit (EvIncreaseACK typeURL) (set_restoring b s))
        with (set_restoring b (emit (EvIncreaseACK typeURL) s)).
      by rewrite Completion_Complete_set_restoring. }
  destruct (ackLoopBody _ _ _ _ _ _ (rem, s) (c0, p0)) as [rem1 s1].
  apply IH.
Qed.

(** X1: HandleResourceVersionAck never reads the restoring flag:
    acknowledgements are recorded and pending completions are resolved in
    the same way while the wrapper is restoring. *)
Theorem ack_ignores_restoring (b : bool) ackVersion nackVersion nodeIP
    (resourceNames : list string) typeURL detail s :
  HandleResourceVersionAck ackVersion nackVersion nodeIP resourceNames typeURL detail
    (set_restoring b s) =
  set_restoring b
    (HandleResourceVersionAck ackVersion nackVersion nodeIP resourceNames typeURL detail s)
  ∧ HandleResourceVersionAck ackVersion nackVersion nodeIP resourceNames typeURL detail
      (MarkRestorePending s) =
    MarkRestorePending
      (HandleResourceVersionAck ackVersion nackVersion nodeIP resourceNames typeURL detail s).
Proof.
  assert (∀ b', HandleResourceVersionAck ackVersion nackVersion nodeIP resourceNames
                  typeURL detail (set_restoring b' s) =
                set_restoring b'
                  (HandleResourceVersionAck ackVersion nackVersion nodeIP resourceNames
                     typeURL detail s)) as Hgen; [|split; apply Hgen].
  intros b'. unfold HandleResourceVersionAck. cbn [ackedVersions set_restoring].
  set (sr := match ackedVersions s !! nodeIP with Some _ => _ | None => _ end).
  set (s0 := match ackedVersions s !! nodeIP with Some _ => _ | None => _ end).
  assert (sr = set_restoring b' s0) as ->.
  { subst s0 sr. destruct (ackedVersions s !! nodeIP) as [prev|]; [|done].
    by destruct (prev <? ackVersion). }
  change (pendingCompletions (set_restoring b' s0)) with (pendingCompletions s0).
  rewrite ackLoop_set_restoring.
  by destruct (foldl _ _ _) as [rem' s'].
Qed.

(** ** What one acknowledgement can change *)

Lemma size_insert_nonzero {A} (m : gmap string A) k x : size (<[k := x]> m) ≠ 0%nat.
Proof. intros Hsize%map_size_empty_iff. by apply insert_non_empty in Hsize. Qed.

Lemma deleteNames_idem r (names : list string) :
  deleteNames (deleteNames r names) names = deleteNames r names.
Proof.
  destruct r as [remaining|]; [|by rewrite !deleteNames_None].
  rewrite !deleteNames_Some. f_equal. set_solver.
Qed.

(** What the loop body leaves of a pending entry that it keeps. *)
Lemma ackPending_kept ackVersion nackVersion nodeIP (resourceNames : list string)
    typeURL detail p p' :
  ackPending ackVersion nackVersion nodeIP resourceNames typeURL detail p = (p', None) →
  pc_version p' = pc_version p ∧ pc_typeURL p' = pc_typeURL p ∧
  (∀ n, n ≠ nodeIP →
     pc_remainingNodesResources p' !! n = pc_remainingNodesResources p !! n) ∧
  ackPending ackVersion nackVersion nodeIP resourceNames typeURL detail p' = (p', None).
Proof.
  unfold ackPending.
  case_bool_decide as HT; [|by intros [= <-]; rewrite bool_decide_false].
  destruct (pc_version p <=? nackVersion) eqn:Hnack;
    [|by intros [= <-]; rewrite bool_decide_true, Hnack].
  destruct (pc_remainingNodesResources p !! nodeIP) as [r|] eqn:Hr;
    [|by intros [= <-]; rewrite bool_decide_true, Hnack, Hr].
  cbn zeta.
  destruct (decide (lenNames (deleteNames r resourceNames) = 0%nat)) as [Hlen|Hlen].
  - rewrite (bool_decide_true (lenNames _ = 0%nat)) by done.
    case_bool_decide as Hsize.
    { intros Heq. cbn in Heq. by destruct (pc_version p <=? ackVersion). }
    intros [= <-]. cbn. split; [done|]. split; [done|].
    split; [intros n Hne; by rewrite lookup_delete_ne|].
    by rewrite bool_decide_true, Hnack, lookup_delete_eq.
  - rewrite (bool_decide_false (lenNames _ = 0%nat)) by done.
    rewrite bool_decide_false by apply size_insert_nonzero.
    intros [= <-]. cbn. split; [done|]. split; [done|].
    split; [intros n Hne; by rewrite lookup_insert_ne|].
    rewrite bool_decide_true, Hnack, lookup_insert_eq by done.
    rewrite deleteNames_idem.
    rewrite (bool_decide_false (lenNames _ = 0%nat)) by done.
    rewrite insert_insert_eq.
    by rewrite bool_decide_false by apply size_insert_nonzero.
Qed.

(** Where an entry that is still pending after a call comes from. *)
Lemma handle_kept s a c p' :
  pendingCompletions (handle s a) !! c = Some p' →
  canceledObj (completions s !! c) = false ∧
  completions (handle s a) !! c = completions s !! c ∧
  ∃ p, pendingCompletions s !! c = Some p ∧
       ackPending (msg_ackVersion a) (msg_nackVersion a) (msg_nodeIP a)
         (msg_resourceNames a) (msg_typeURL a) (msg_detail a) p = (p', None).
Proof.
  unfold handle.
  rewrite HandleResourceVersionAck_pending, HandleResourceVersionAck_completions.
  destruct (pendingCompletions s !! c) as [p|]; [|done]. cbn.
  unfold entryKeep, entryOutcome.
  destruct (canceledObj (completions s !! c)); [done|].
  destruct (ackPending _ _ _ _ _ _ p) as [p1 [e|]] eqn:Hack; [done|].
  intros [= ->]. cbn. eauto.
Qed.

(** X2: one HandleResourceVersionAck changes nothing but the acked version
    of its node, the pending entries and the completions it completes: the
    store, the recorded version, the restoring flag and the records of
    other nodes stay; no entry is added; a kept entry keeps its version and
    type URL and what it awaits from every other node. *)
Theorem ack_changes_only_its_node s a :
  let s' := handle s a in
  mutator s' = mutator s ∧ version s' = version s ∧ restoring s' = restoring s ∧
  nextCompletion s' = nextCompletion s ∧
  (∀ n, n ≠ msg_nodeIP a → ackedVersions s' !! n = ackedVersions s !! n) ∧
  dom (pendingCompletions s') ⊆ dom (pendingCompletions s) ∧
  (∀ c p', pendingCompletions s' !! c = Some p' →
     ∃ p, pendingCompletions s !! c = Some p ∧
          pc_version p' = pc_version p ∧ pc_typeURL p' = pc_typeURL p ∧
          ∀ n, n ≠ msg_nodeIP a →
            pc_remainingNodesResources p' !! n = pc_remainingNodesResources p !! n) ∧
  (∀ c, canceledObj (completions s' !! c) = canceledObj (completions s !! c)).
Proof.
  cbn zeta.
  destruct (HandleResourceVersionAck_frame (msg_ackVersion a) (msg_nackVersion a)
              (msg_nodeIP a) (msg_resourceNames a) (msg_typeURL a) (msg_detail a) s)
    as (Hm & Hv & Hr & Hn).
  split; [done|]. split; [done|]. split; [done|]. split; [done|].
  split; [|split; [|split]].
  - intros n Hne. unfold handle. rewrite HandleResourceVersionAck_ackedVersions.
    destruct (ackedVersions s !! msg_nodeIP a) as [prev|].
    + destruct (prev <? msg_ackVersion a); [by rewrite lookup_insert_ne|done].
    + by rewrite lookup_insert_ne.
  - intros c [p' Hp']%elem_of_dom.
    apply handle_kept in Hp' as (_ & _ & p & Hp & _). apply elem_of_dom. eauto.
  - intros c p' Hp'. apply handle_kept in Hp' as (_ & _ & p & Hp & Hack).
    apply ackPending_kept in Hack as (? & ? & ? & _). eauto.
  - intros c. unfold handle. rewrite HandleResourceVersionAck_completions.
    destruct (_ ≫= _); [apply canceledObj_completeObj|done].
Qed.

(** After a call, no entry that is still pending would be completed by the
    same message. *)
Lemma handle_second_quiet s a c :
  pendingCompletions (handle s a) !! c ≫=
    entryOutcome (msg_ackVersion a) (msg_nackVersion a) (msg_nodeIP a)
      (msg_resourceNames a) (msg_typeURL a) (msg_detail a)
      (completions (handle s a) !! c) = None.
Proof.
  destruct (pendingCompletions (handle s a) !! c) as [p'|] eqn:Hp'; [|done].
  apply handle_kept in Hp' as (Hcan & -> & p & _ & Hack).
  apply ackPending_kept in Hack as (_ & _ & _ & Hidem).
  cbn. unfold entryOutcome. by rewrite Hcan, Hidem.
Qed.

Lemma flat_map_nil {A B} (f : A → list B) (l : list A) :
  (∀ x, x ∈ l → f x = []) → flat_map f l = [].
Proof.
  induction l as [|x l IH]; intros Hall; [done|]. cbn.
  rewrite (Hall x) by apply list_elem_of_here. apply IH.
  intros y Hy. apply Hall. by apply list_elem_of_further.
Qed.

(** X3: a message delivered twice in a row has no further effect: the
    second call leaves the whole state, the trace included, as the first
    call left it. *)
Theorem duplicate_ack_is_harmless s a : handle (handle s a) a = handle s a.
Proof.
  destruct (HandleResourceVersionAck_frame (msg_ackVersion a) (msg_nackVersion a)
              (msg_nodeIP a) (msg_resourceNames a) (msg_typeURL a) (msg_detail a)
              (handle s a)) as (Hm & Hv & Hr & Hn).
  apply State_eq; try done.
  - unfold handle. rewrite !HandleResourceVersionAck_ackedVersions.
    destruct (ackedVersions s !! msg_nodeIP a) as [prev|] eqn:Hprev.
    + destruct (prev <? msg_ackVersion a) eqn:Hlt.
      * by rewrite lookup_insert_eq, N.ltb_irrefl.
      * by rewrite Hprev, Hlt.
    + by rewrite lookup_insert_eq, N.ltb_irrefl.
  - apply map_eq. intros c.
    change (handle (handle s a) a) with
      (HandleResourceVersionAck (msg_ackVersion a) (msg_nackVersion a) (msg_nodeIP a)
         (msg_resourceNames a) (msg_typeURL a) (msg_detail a) (handle s a)).
    rewrite HandleResourceVersionAck_pending.
    destruct (pendingCompletions (handle s a) !! c) as [p'|] eqn:Hp'; [|done].
    apply handle_kept in Hp' as (Hcan & -> & p & _ & Hack).
    apply ackPending_kept in Hack as (_ & _ & _ & Hidem).
    cbn. unfold entryKeep. by rewrite Hcan, Hidem.
  - apply map_eq. intros c.
    change (handle (handle s a) a) with
      (HandleResourceVersionAck (msg_ackVersion a) (msg_nackVersion a) (msg_nodeIP a)
         (msg_resourceNames a) (msg_typeURL a) (msg_detail a) (handle s a)).
    by rewrite HandleResourceVersionAck_completions, handle_second_quiet.
  - change (handle (handle s a) a) with
      (HandleResourceVersionAck (msg_ackVersion a) (msg_nackVersion a) (msg_nodeIP a)
         (msg_resourceNames a) (msg_typeURL a) (msg_detail a) (handle s a)).
    rewrite HandleResourceVersionAck_trace, flat_map_nil; [by rewrite app_nil_r|].
    intros [c p'] Hin%elem_of_map_to_list. cbn. unfold entryEvents.
    pose proof (handle_second_quiet s a c) as Hq. rewrite Hin in Hq. cbn in Hq.
    by rewrite Hq.
Qed.

(** X4: a message leaves an uncanceled pending entry exactly as it is, and
    does not complete it, when it is for another type URL, when its
    nackVersion is below the pending version, or when its node is not
    among the remaining nodes of the entry. *)
Theorem unrelated_ack_keeps_entry s a c p :
  pendingCompletions s !! c = Some p →
  Completion_Err c s = false →
  msg_typeURL a ≠ pc_typeURL p ∨ msg_nackVersion a < pc_version p ∨
    pc_remainingNodesResources p !! msg_nodeIP a = None →
  pendingCompletions (handle s a) !! c = Some p ∧
  completions (handle s a) !! c = completions s !! c ∧
  ∀ e, EvComplete c e ∉ eventsSince s (handle s a).
Proof.
  intros Hp Hc Hun. rewrite Completion_Err_lookup in Hc.
  assert (ackPending (msg_ackVersion a) (msg_nackVersion a) (msg_nodeIP a)
            (msg_resourceNames a) (msg_typeURL a) (msg_detail a) p = (p, None)) as Hack.
  { unfold ackPending. case_bool_decide as HT; [|done].
    destruct (pc_version p <=? msg_nackVersion a) eqn:Hnack; [|done].
    apply N.leb_le in Hnack.
    destruct Hun as [Hne|[Hlt|Hnone]]; [done|lia|]. by rewrite Hnone. }
  split.
  - unfold handle. rewrite HandleResourceVersionAck_pending, Hp. cbn.
    unfold entryKeep. by rewrite Hc, Hack.
  - apply handle_quiet. rewrite Hp. cbn. unfold entryOutcome. by rewrite Hc, Hack.
Qed.

(** ** Upsert and Delete outside the claims' paths *)

Lemma eventsSince_same s s' : trace s' = trace s → eventsSince s s' = [].
Proof. intros Ht. unfold eventsSince. rewrite Ht. apply drop_all. Qed.

Lemma eventsSince_emit s s' e : trace s' = trace s ++ [e] → eventsSince s s' = [e].
Proof. intros Ht. unfold eventsSince. rewrite Ht. apply drop_app_length. Qed.

(** X5: with a nil WaitGroup, Upsert and Delete never fail, record the
    version and the store the mutator returns, register and allocate
    nothing, and call the callback, if there is one, once with nil, whether
    or not the resource changed and whether or not the wrapper is
    restoring. *)
Theorem no_wait_calls_back s typeURL resourceName (resource : Resource)
    (nodeIDs : list string) (callback : option Callback) :
  (∃ rv s',
     Upsert typeURL resourceName resource nodeIDs None callback s = Ok (rv, s') ∧
     version s' = (mutUpsert typeURL resourceName resource (mutator s)).1.1.1 ∧
     mutator s' = (mutUpsert typeURL resourceName resource (mutator s)).2 ∧
     pendingCompletions s' = pendingCompletions s ∧
     completions s' = completions s ∧ nextCompletion s' = nextCompletion s ∧
     eventsSince s s' = match callback with
                        | Some cb => [EvCallback cb None]
                        | None => []
                        end) ∧
  (∃ rv s',
     Delete typeURL resourceName nodeIDs None callback s = Ok (rv, s') ∧
     version s' = (mutDelete typeURL resourceName (mutator s)).1.1.1 ∧
     mutator s' = (mutDelete typeURL resourceName (mutator s)).2 ∧
     pendingCompletions s' = pendingCompletions s ∧
     completions s' = completions s ∧ nextCompletion s' = nextCompletion s ∧
     eventsSince s s' = match callback with
                        | Some cb => [EvCallback cb None]
                        | None => []
                        end).
Proof.
  split.
  - unfold Upsert.
    destruct (mutUpsert _ _ _ _) as [[[v updated] revert] st].
    destruct updated, (restoring s), callback as [cb|]; cbn; do 2 eexists;
      (split; [reflexivity|]); cbn;
      repeat (split; [done|]);
      first [by apply eventsSince_emit | by apply eventsSince_same].
  - unfold Delete.
    destruct (mutDelete _ _ _) as [[[v updated] revert] st].
    destruct updated, (restoring s), callback as [cb|]; cbn; do 2 eexists;
      (split; [reflexivity|]); cbn;
      repeat (split; [done|]);
      first [by apply eventsSince_emit | by apply eventsSince_same].
Qed.

(** X6: an Upsert or Delete that finds no change and waits, at a time when
    every node in [nodeIDs] has acked at least the version the mutator
    returns, registers nothing, allocates no completion and does not call
    the callback at all. *)
Theorem unchanged_and_acked_is_silent s typeURL resourceName (resource : Resource)
    (nodeIDs : list string) (wg : WaitGroup) (callback : option Callback) :
  restoring s = false →
  ((mutUpsert typeURL resourceName resource (mutator s)).1.1.2 = false →
   (∀ n, n ∈ nodeIDs → ∃ v, ackedVersions s !! n = Some v ∧
      (mutUpsert typeURL resourceName resource (mutator s)).1.1.1 ≤ v) →
   ∃ rv s',
     Upsert typeURL resourceName resource nodeIDs (Some wg) callback s = Ok (rv, s') ∧
     pendingCompletions s' = pendingCompletions s ∧
     completions s' = completions s ∧ nextCompletion s' = nextCompletion s ∧
     eventsSince s s' = []) ∧
  ((mutDelete typeURL resourceName (mutator s)).1.1.2 = false →
   (∀ n, n ∈ nodeIDs → ∃ v, ackedVersions s !! n = Some v ∧
      (mutDelete typeURL resourceName (mutator s)).1.1.1 ≤ v) →
   ∃ rv s',
     Delete typeURL resourceName nodeIDs (Some wg) callback s = Ok (rv, s') ∧
     pendingCompletions s' = pendingCompletions s ∧
     completions s' = completions s ∧ nextCompletion s' = nextCompletion s ∧
     eventsSince s s' = []).
Proof.
  intros Hr. split.
  - unfold Upsert. rewrite Hr.
    destruct (mutUpsert _ _ _ _) as [[[v updated] revert] st]. cbn.
    intros -> Hall%currentVersionAcked_from_true. cbn.
    unfold useCurrent, currentVersionAcked. cbn. rewrite Hall. cbn.
    do 2 eexists. split; [reflexivity|]. cbn. repeat (split; [done|]).
    by apply eventsSince_same.
  - unfold Delete. rewrite Hr.
    destruct (mutDelete _ _ _) as [[[v updated] revert] st]. cbn.
    intros -> Hall%currentVersionAcked_from_true. cbn.
    unfold useCurrent, currentVersionAcked. cbn. rewrite Hall. cbn.
    do 2 eexists. split; [reflexivity|]. cbn. repeat (split; [done|]).
    by apply eventsSince_same.
Qed.

Lemma currentVersionAcked_from_false acked v (nodeIDs : list string) n :
  n ∈ nodeIDs →
  acked !! n = None ∨ (∃ w, acked !! n = Some w ∧ w < v) →
  currentVersionAcked_from acked v nodeIDs = false.
Proof.
  intros Hn Hlow. apply not_true_is_false. rewrite currentVersionAcked_from_true.
  intros Hall. destruct (Hall n Hn) as (w & Hw & Hle).
  destruct Hlow as [Hnone|(w' & Hw' & Hlt)]; [congruence|].
  rewrite Hw in Hw'. injection Hw' as <-. lia.
Qed.

(** X7: an Upsert that finds no change and waits while some node in
    [nodeIDs] has not acked the version the mutator returns hands the
    callback to a new completion that waits for any acknowledgement of that
    version and type URL from every node: the completion gets its outcome
    from the message that counts (type URL and nackVersion, no names looked
    at) for the last node not yet covered, nil or NACK by the ackVersion of
    that message. *)
Theorem unchanged_and_unacked_waits s typeURL resourceName (resource : Resource)
    (nodeIDs : list string) (wg : WaitGroup) (callback : option Callback) n rv s1 :
  restoring s = false →
  (mutUpsert typeURL resourceName resource (mutator s)).1.1.2 = false →
  n ∈ nodeIDs →
  (ackedVersions s !! n = None ∨
   ∃ v, ackedVersions s !! n = Some v ∧
        v < (mutUpsert typeURL resourceName resource (mutator s)).1.1.1) →
  Upsert typeURL resourceName resource nodeIDs (Some wg) callback s = Ok (rv, s1) →
  let c := nextCompletion s in
  version s1 = (mutUpsert typeURL resourceName resource (mutator s)).1.1.1 ∧
  pendingCompletions s1 !! c =
    Some {| pc_version := version s1; pc_typeURL := typeURL;
            pc_remainingNodesResources := gset_to_gmap None (list_to_set nodeIDs) |} ∧
  completions s1 !! c =
    Some {| c_wg := wg; c_callback := callback; c_canceled := false; c_result := None |} ∧
  eventsSince s s1 = [] ∧
  ∀ (msgs : list AckMsg) e,
    outcome c (handleAll s1 msgs) = Some (Some e) ↔
    ∃ a, resolvedWith (version s1) typeURL None (list_to_set nodeIDs) msgs a ∧
         e = ackOrNack (version s1) (msg_ackVersion a) (msg_detail a).
Proof.
  intros Hr Hupd Hn Hlow Hcall. cbn zeta.
  unfold Upsert in Hcall. rewrite Hr in Hcall.
  destruct (mutUpsert _ _ _ _) as [[[v updated] revert] st]. cbn in Hupd, Hlow, Hcall.
  subst updated. cbn in Hcall. unfold useCurrent, currentVersionAcked in Hcall.
  cbn in Hcall. rewrite (currentVersionAcked_from_false _ _ _ n Hn Hlow) in Hcall.
  cbn in Hcall. injection Hcall as _ <-. cbn.
  rewrite !lookup_insert_eq, foldl_insert_gset_to_gmap.
  split; [done|]. split; [done|]. split; [done|].
  split; [by apply eventsSince_same|].
  intros msgs e.
  apply (resolution_char _ v typeURL None msgs (list_to_set nodeIDs) _
           {| c_wg := wg; c_callback := callback; c_canceled := false;
              c_result := None |}); cbn; try done.
  - by rewrite lookup_insert_eq, foldl_insert_gset_to_gmap.
  - by rewrite lookup_insert_eq.
Qed.

Lemma Upsert_changed_revert s typeURL resourceName (resource : Resource)
    (nodeIDs : list string) (wg : option WaitGroup) (callback : option Callback)
    v revert st rv s1 :
  mutUpsert typeURL resourceName resource (mutator s) = ((v, true, revert), st) →
  Upsert typeURL resourceName resource nodeIDs wg callback s = Ok (rv, s1) →
  rv = revertChange revert typeURL nodeIDs.
Proof.
  intros Hmut Hup. unfold Upsert in Hup. rewrite Hmut in Hup. cbn in Hup.
  destruct wg as [g|], (restoring s); cbn in Hup; try by injection Hup.
  destruct (bool_decide _) in Hup; [done|]. by injection Hup.
Qed.

Lemma Delete_changed_revert s typeURL resourceName
    (nodeIDs : list string) (wg : option WaitGroup) (callback : option Callback)
    v revert st rv s1 :
  mutDelete typeURL resourceName (mutator s) = ((v, true, revert), st) →
  Delete typeURL resourceName nodeIDs wg callback s = Ok (rv, s1) →
  rv = revertChange revert typeURL nodeIDs.
Proof.
  intros Hmut Hup. unfold Delete in Hup. rewrite Hmut in Hup. cbn in Hup.
  destruct wg as [g|], (restoring s); cbn in Hup; try by injection Hup.
  destruct (bool_decide _) in Hup; [done|]. by injection Hup.
Qed.

(** X8: the revert function of a changed Delete, called with a non-nil
    completion, runs the store's revert function, records the version it
    returns and registers under that completion a pendingCompletion for
    that version and type URL with a nil entry for every node of the
    Delete; it touches nothing else. *)
Theorem Delete_revert_any_ack s typeURL resourceName
    (nodeIDs : list string) (wg : option WaitGroup) (callback : option Callback)
    v (revert : ResourceMutatorRevertFunc Store) st rv s1 :
  mutDelete typeURL resourceName (mutator s) = ((v, true, Some revert), st) →
  Delete typeURL resourceName nodeIDs wg callback s = Ok (rv, s1) →
  ∀ (c : Completion) s2,
    let s3 := rv (Some c) s2 in
    mutator s3 = (revert (mutator s2)).2 ∧
    version s3 = (revert (mutator s2)).1.1 ∧
    pendingCompletions s3 =
      <[c := {| pc_version := (revert (mutator s2)).1.1; pc_typeURL := typeURL;
                pc_remainingNodesResources := gset_to_gmap None (list_to_set nodeIDs) |}]>
        (pendingCompletions s2) ∧
    ackedVersions s3 = ackedVersions s2 ∧ restoring s3 = restoring s2 ∧
    completions s3 = completions s2 ∧ nextCompletion s3 = nextCompletion s2 ∧
    trace s3 = trace s2.
Proof.
  intros Hmut Hdel c s2.
  rewrite (Delete_changed_revert _ _ _ _ _ _ _ _ _ _ _ Hmut Hdel).
  cbn. destruct (revert (mutator s2)) as [[v2 b] st2]. cbn.
  by rewrite foldl_insert_gset_to_gmap.
Qed.

(** X9: the revert function of a changed Upsert or Delete, called with a
    nil completion, runs the store's revert function and records the
    version it returns, and registers nothing; when the mutator gave no
    revert function, it does nothing at all, whatever completion it gets. *)
Theorem revert_without_completion s typeURL resourceName (resource : Resource)
    (nodeIDs : list string) (wg : option WaitGroup) (callback : option Callback)
    v (revert : option (ResourceMutatorRevertFunc Store)) st rv s1 :
  (mutUpsert typeURL resourceName resource (mutator s) = ((v, true, revert), st) ∧
   Upsert typeURL resourceName resource nodeIDs wg callback s = Ok (rv, s1)) ∨
  (mutDelete typeURL resourceName (mutator s) = ((v, true, revert), st) ∧
   Delete typeURL resourceName nodeIDs wg callback s = Ok (rv, s1)) →
  ∀ s2,
    match revert with
    | Some f =>
        mutator (rv None s2) = (f (mutator s2)).2 ∧
        version (rv None s2) = (f (mutator s2)).1.1 ∧
        pendingCompletions (rv None s2) = pendingCompletions s2 ∧
        ackedVersions (rv None s2) = ackedVersions s2 ∧
        restoring (rv None s2) = restoring s2 ∧
        completions (rv None s2) = completions s2 ∧
        nextCompletion (rv None s2) = nextCompletion s2 ∧
        trace (rv None s2) = trace s2
    | None => ∀ completion, rv completion s2 = s2
    end.
Proof.
  intros Hcall s2.
  assert (rv = revertChange revert typeURL nodeIDs) as ->.
  { destruct Hcall as [[Hmut Hup]|[Hmut Hdel]].
    - by eapply Upsert_changed_revert.
    - by eapply Delete_changed_revert. }
  destruct revert as [f|]; [|done]. cbn.
  by destruct (f (mutator s2)) as [[v2 b] st2].
Qed.

(** ** Acknowledgements and the current version *)

Lemma handleAll_app s (l1 l2 : list AckMsg) :
  handleAll s (l1 ++ l2) = handleAll (handleAll s l1) l2.
Proof. apply foldl_app. Qed.

Lemma handleAll_version s (msgs : list AckMsg) : version (handleAll s msgs) = version s.
Proof.
  revert s. induction msgs as [|a msgs IH]; intros s; [done|].
  rewrite handleAll_cons, IH. unfold handle.
  by destruct (HandleResourceVersionAck_frame (msg_ackVersion a) (msg_nackVersion a)
                 (msg_nodeIP a) (msg_resourceNames a) (msg_typeURL a) (msg_detail a) s)
    as (_ & ? & _).
Qed.

Lemma handleAll_ackedVersions_mono s (msgs : list AckMsg) node v :
  ackedVersions s !! node = Some v →
  ∃ v', ackedVersions (handleAll s msgs) !! node = Some v' ∧ v ≤ v'.
Proof.
  revert s v. induction msgs as [|m msgs IH]; intros s v Hv; [eauto|].
  destruct (handle_ackedVersions_mono s m node v Hv) as (v1 & Hv1 & Hle1).
  destruct (IH _ _ Hv1) as (v' & Hv' & Hle'). exists v'. split; [done|lia].
Qed.

Lemma handle_records_ack s a :
  ∃ v, ackedVersions (handle s a) !! msg_nodeIP a = Some v ∧ msg_ackVersion a ≤ v.
Proof.
  unfold handle. rewrite HandleResourceVersionAck_ackedVersions.
  destruct (ackedVersions s !! msg_nodeIP a) as [prev|] eqn:Hprev.
  - destruct (prev <? msg_ackVersion a) eqn:Hlt.
    + rewrite lookup_insert_eq. eexists. split; [done|lia].
    + apply N.ltb_ge in Hlt. eauto.
  - rewrite lookup_insert_eq. eexists. split; [done|lia].
Qed.

(** X10: once every node in [nodeIDs] has sent, in any order and among any
    other messages, an acknowledgement whose ackVersion reaches the recorded
    version, the current version counts as acked and UseCurrent registers
    nothing. *)
Theorem acked_by_all_then_UseCurrent_is_noop s (msgs : list AckMsg)
    (nodeIDs : list string) :
  (∀ n, n ∈ nodeIDs →
     ∃ a, a ∈ msgs ∧ msg_nodeIP a = n ∧ version s ≤ msg_ackVersion a) →
  currentVersionAcked nodeIDs (handleAll s msgs) = true ∧
  ∀ typeURL wg,
    UseCurrent typeURL nodeIDs wg (handleAll s msgs) = handleAll s msgs.
Proof.
  intros Hall.
  assert (currentVersionAcked nodeIDs (handleAll s msgs) = true) as Hacked.
  { unfold currentVersionAcked. rewrite handleAll_version.
    apply currentVersionAcked_from_true.
    intros n Hn. destruct (Hall n Hn) as (a & Hin & <- & Hle).
    apply list_elem_of_split in Hin as (l1 & l2 & ->).
    rewrite handleAll_app, handleAll_cons.
    destruct (handle_records_ack (handleAll s l1) a) as (v1 & Hv1 & Hle1).
    destruct (handleAll_ackedVersions_mono _ l2 _ _ Hv1) as (v' & Hv' & Hle').
    exists v'. split; [done|lia]. }
  split; [done|]. intros typeURL wg. unfold UseCurrent.
  destruct wg as [g|]; [|done]. destruct (restoring _); [done|]. cbn.
  unfold useCurrent. by rewrite Hacked.
Qed.

(** X11: DeleteNode forgets what the node had acked and nothing else.  The
    next acknowledgement of that node is recorded as it comes, even when it
    is lower than the version forgotten, and until then the current version
    does not count as acked for any list that names the node. *)
Theorem DeleteNode_forgets s (nodeID : string) :
  ackedVersions (DeleteNode nodeID s) !! nodeID = None ∧
  (∀ n, n ≠ nodeID → ackedVersions (DeleteNode nodeID s) !! n = ackedVersions s !! n) ∧
  pendingCompletions (DeleteNode nodeID s) = pendingCompletions s ∧
  version (DeleteNode nodeID s) = version s ∧
  (∀ a, msg_nodeIP a = nodeID →
     ackedVersions (handle (DeleteNode nodeID s) a) !! nodeID = Some (msg_ackVersion a)) ∧
  (∀ nodeIDs, nodeID ∈ nodeIDs →
     currentVersionAcked nodeIDs (DeleteNode nodeID s) = false).
Proof.
  split; [apply lookup_delete_eq|].
  split; [intros n Hne; by apply lookup_delete_ne|].
  split; [done|]. split; [done|]. split.
  - intros a <-. unfold handle. rewrite HandleResourceVersionAck_ackedVersions.
    cbn. rewrite lookup_delete_eq. apply lookup_insert_eq.
  - intros nodeIDs Hin. unfold currentVersionAcked.
    apply (currentVersionAcked_from_false _ _ _ nodeID Hin). left.
    apply lookup_delete_eq.
Qed.

(** ** Reverting a list *)

(** X12: [Revert] of a concatenation reverts the second list first and the
    first list after it, each function getting its own new completion from
    the wait group, or nil when there is no wait group; reverting the empty
    list does nothing. *)
Theorem Revert_app (rl1 rl2 : list (AckingResourceMutatorRevertFunc Store))
    (wg : option WaitGroup) s :
  Revert (rl1 ++ rl2) wg s = Revert rl1 wg (Revert rl2 wg s) ∧
  Revert [] wg s = s ∧
  (∀ f, Revert (rl1 ++ [f]) None s = Revert rl1 None (f None s)) ∧
  (∀ f g, Revert (rl1 ++ [f]) (Some g) s =
          Revert rl1 (Some g) (f (Some (nextCompletion s)) (AddCompletion g s).2)).
Proof.
  assert (∀ l1 l2 w s0, Revert (l1 ++ l2) w s0 = Revert l1 w (Revert l2 w s0)) as Happ.
  { intros l1 l2 w s0. unfold Revert. by rewrite rev_app_distr, foldl_app. }
  split; [apply Happ|]. split; [done|]. split; intros; by rewrite Happ.
Qed.

Lemma revert_noops_loop (g : WaitGroup) (l : list (AckingResourceMutatorRevertFunc Store)) :
  (∀ f, f ∈ l → ∀ completion s, f completion s = s) →
  ∀ s, let s' := foldl (revertOne (Some g)) s l in
    mutator s' = mutator s ∧ version s' = version s ∧
    ackedVersions s' = ackedVersions s ∧
    pendingCompletions s' = pendingCompletions s ∧
    restoring s' = restoring s ∧ trace s' = trace s ∧
    N.pos (nextCompletion s') = N.pos (nextCompletion s) + N.of_nat (length l) ∧
    (∀ c, (c < nextCompletion s)%positive →
          completions s' !! c = completions s !! c) ∧
    (∀ c, (nextCompletion s ≤ c)%positive → (c < nextCompletion s')%positive →
          completions s' !! c =
          Some {| c_wg := g; c_callback := None; c_canceled := false; c_result := None |}).
Proof.
  induction l as [|f l IH]; intros Hnoop s; cbn zeta.
  { cbn. repeat (split; [done|]). intros c Hge Hlt. exfalso. lia. }
  cbn [foldl]. unfold revertOne at 2. cbn.
  rewrite (Hnoop f) by apply list_elem_of_here.
  set (s1 := set_nextCompletion _ _).
  destruct (IH (λ f' Hf', Hnoop f' (list_elem_of_further _ _ _ Hf')) s1)
    as (Hm & Hv & Ha & Hp & Hr & Ht & Hn & Hold & Hnew).
  cbn [nextCompletion s1 set_nextCompletion] in Hn, Hold, Hnew.
  repeat (split; [done|]). split; [cbn [length]; lia|]. split.
  - intros c Hc. rewrite Hold by lia. subst s1. cbn. apply lookup_insert_ne. lia.
  - intros c Hge Hlt. destruct (decide (c = nextCompletion s)) as [->|Hne].
    + rewrite Hold by lia. subst s1. cbn. apply lookup_insert_eq.
    + apply Hnew; [lia|done].
Qed.

(** X13: with a wait group, [Revert] of a list of revert functions that do
    nothing (as the ones returned when nothing was updated) still takes one
    new completion from the wait group per function.  None of them is
    registered, so no acknowledgement ever completes one; the wrapper's own
    fields and the trace stay as they were. *)
Theorem Revert_of_noops_leaves_completions
    (rl : list (AckingResourceMutatorRevertFunc Store)) (g : WaitGroup) s :
  (∀ f, f ∈ rl → ∀ completion s0, f completion s0 = s0) →
  let s' := Revert rl (Some g) s in
  mutator s' = mutator s ∧ version s' = version s ∧
  pendingCompletions s' = pendingCompletions s ∧ trace s' = trace s ∧
  N.pos (nextCompletion s') = N.pos (nextCompletion s) + N.of_nat (length rl) ∧
  ∀ c, (nextCompletion s ≤ c)%positive → (c < nextCompletion s')%positive →
    completions s' !! c =
      Some {| c_wg := g; c_callback := None; c_canceled := false; c_result := None |} ∧
    (pendingCompletions s !! c = None →
     ∀ msgs : list AckMsg,
       outcome c (handleAll s' msgs) = Some None ∧
       ∀ e, EvComplete c e ∉ eventsSince s' (handleAll s' msgs)).
Proof.
  intros Hnoop. cbn zeta. unfold Revert.
  destruct (revert_noops_loop g (rev rl)) with (s := s)
    as (Hm & Hv & Ha & Hp & Hr & Ht & Hn & Hold & Hnew).
  { intros f Hf%list_elem_of_In%in_rev%list_elem_of_In. by apply Hnoop. }
  rewrite length_rev in Hn.
  repeat (split; [done|]). intros c Hge Hlt.
  split; [by apply Hnew|]. intros Hnone msgs.
  rewrite <- Hp in Hnone.
  destruct (handleAll_not_pending _ msgs c Hnone) as (_ & Hc & Hev).
  split; [|done]. unfold outcome. rewrite Hc, Hnew by done. done.
Qed.

(** ** The error handed over on a NACK *)


(** ** What Upsert and Delete never do *)

(** X15: an Upsert or Delete that returns leaves [ackedVersions] and the
    restoring flag alone, records the version and the store the mutator
    returned, touches no pending entry and no completion object other than
    the one the wait group may have just created, and calls nothing but the
    callback it was given, with nil: it completes no completion and counts
    no ACK or NACK. *)
Theorem mutation_frame s typeURL resourceName (resource : Resource)
    (nodeIDs : list string) (wg : option WaitGroup) (callback : option Callback) rv s' :
  (Upsert typeURL resourceName resource nodeIDs wg callback s = Ok (rv, s') →
   ackedVersions s' = ackedVersions s ∧ restoring s' = restoring s ∧
   version s' = (mutUpsert typeURL resourceName resource (mutator s)).1.1.1 ∧
   mutator s' = (mutUpsert typeURL resourceName resource (mutator s)).2 ∧
   (∀ c, c ≠ nextCompletion s →
      pendingCompletions s' !! c = pendingCompletions s !! c ∧
      completions s' !! c = completions s !! c) ∧
   (∀ e, e ∈ eventsSince s s' → ∃ cb, callback = Some cb ∧ e = EvCallback cb None)) ∧
  (Delete typeURL resourceName nodeIDs wg callback s = Ok (rv, s') →
   ackedVersions s' = ackedVersions s ∧ restoring s' = restoring s ∧
   version s' = (mutDelete typeURL resourceName (mutator s)).1.1.1 ∧
   mutator s' = (mutDelete typeURL resourceName (mutator s)).2 ∧
   (∀ c, c ≠ nextCompletion s →
      pendingCompletions s' !! c = pendingCompletions s !! c ∧
      completions s' !! c = completions s !! c) ∧
   (∀ e, e ∈ eventsSince s s' → ∃ cb, callback = Some cb ∧ e = EvCallback cb None)).
Proof.
  assert (∀ v st (s1 : State Store),
    s1 = useCurrent typeURL nodeIDs (default 1%positive wg) callback
           (set_version v (set_mutator st s)) ∨
    s1 = set_version v (set_mutator st s) ∨
    (∃ cb, callback = Some cb ∧ s1 = call cb None (set_version v (set_mutator st s))) ∨
    (∃ g p, wg = Some g ∧
       s1 = set_pendingCompletions
              (<[nextCompletion s := p]> (pendingCompletions s))
              (AddCompletionWithCallback g callback (set_version v (set_mutator st s))).2) →
    ackedVersions s1 = ackedVersions s ∧ restoring s1 = restoring s ∧
    version s1 = v ∧ mutator s1 = st ∧
    (∀ c, c ≠ nextCompletion s →
       pendingCompletions s1 !! c = pendingCompletions s !! c ∧
       completions s1 !! c = completions s !! c) ∧
    (∀ e, e ∈ eventsSince s s1 → ∃ cb, callback = Some cb ∧ e = EvCallback cb None))
    as Hshape.
  { intros v st s1 [->|[->|[(cb & -> & ->)|(g & p & -> & ->)]]].
    - unfold useCurrent. destruct (negb _); cbn.
      + do 4 (split; [done|]). split.
        * intros c Hne. by rewrite !lookup_insert_ne.
        * intros e. rewrite eventsSince_same by done. by intros ?%not_elem_of_nil.
      + do 4 (split; [done|]). split; [done|].
        intros e. rewrite eventsSince_same by done. by intros ?%not_elem_of_nil.
    - cbn. do 4 (split; [done|]). split; [done|].
      intros e. rewrite eventsSince_same by done. by intros ?%not_elem_of_nil.
    - cbn. do 4 (split; [done|]). split; [done|].
      intros e. rewrite (eventsSince_emit _ _ (EvCallback cb None)) by done.
      intros ->%list_elem_of_singleton. eauto.
    - cbn. do 4 (split; [done|]). split.
      + intros c Hne. by rewrite !lookup_insert_ne.
      + intros e. rewrite eventsSince_same by done. by intros ?%not_elem_of_nil. }
  split; intros Hcall.
  - unfold Upsert in Hcall.
    destruct (mutUpsert _ _ _ _) as [[[v updated] revert] st]. cbn.
    apply Hshape.
    destruct updated, wg as [g|], (restoring s), callback as [cb|]; cbn in Hcall;
      try (injection Hcall as _ <-; by eauto 10).
    all: destruct (bool_decide _) in Hcall; [done|]; injection Hcall as _ <-;
      do 3 right; do 2 eexists; split; [done|reflexivity].
  - unfold Delete in Hcall.
    destruct (mutDelete _ _ _) as [[[v updated] revert] st]. cbn.
    apply Hshape.
    destruct updated, wg as [g|], (restoring s), callback as [cb|]; cbn in Hcall;
      try (injection Hcall as _ <-; by eauto 10).
    all: destruct (bool_decide _) in Hcall; [done|]; injection Hcall as _ <-;
      do 3 right; do 2 eexists; split; [done|reflexivity].
Qed.

(** ** At most one Complete per completion *)

Lemma countCompletes_app c (l1 l2 : list Event) :
  countCompletes c (l1 ++ l2) = (countCompletes c l1 + countCompletes c l2)%nat.
Proof. induction l1 as [|e l1 IH]; [done|]. cbn. rewrite IH. lia. Qed.

Lemma countCompletes_zero c (evs : list Event) :
  (∀ e, EvComplete c e ∉ evs) → countCompletes c evs = 0%nat.
Proof.
  induction evs as [|ev evs IH]; intros Hno; [done|]. cbn.
  rewrite IH by (intros e Hin; apply (Hno e); by apply list_elem_of_further).
  destruct ev as [| c' e | |]; cbn; try done.
  case_bool_decide as Hc; [|done]. subst c'.
  exfalso. apply (Hno e). apply list_elem_of_here.
Qed.

Lemma countCompletes_entryEvents ackVersion nackVersion nodeIP
    (resourceNames : list string) typeURL detail o c c' p :
  (countCompletes c
     (entryEvents ackVersion nackVersion nodeIP resourceNames typeURL detail o c' p)
   ≤ 1)%nat ∧
  (c' ≠ c →
   countCompletes c
     (entryEvents ackVersion nackVersion nodeIP resourceNames typeURL detail o c' p)
   = 0%nat).
Proof.
  unfold entryEvents, completionEvents.
  destruct (entryOutcome _ _ _ _ _ _ o p) as [e|]; cbn; [|by split; [lia|]].
  assert (countCompletes c
            match o with
            | Some obj => match c_result obj, c_callback obj with
                          | None, Some cb => [EvCallback cb e]
                          | _, _ => []
                          end
            | None => []
            end = 0%nat) as ->.
  { destruct o as [obj|]; [|done]. by destruct (c_result obj), (c_callback obj). }
  destruct e; cbn; case_bool_decide; split; (lia || done).
Qed.

Lemma countCompletes_loop ackVersion nackVersion nodeIP
    (resourceNames : list string) typeURL detail
    (h : gmap Completion CompletionObj) c (l : list (Completion * pendingCompletion)) :
  NoDup l.*1 →
  (countCompletes c
     (flat_map (λ e, entryEvents ackVersion nackVersion nodeIP resourceNames typeURL
                       detail (h !! e.1) e.1 e.2) l) ≤ 1)%nat ∧
  (c ∉ l.*1 →
   countCompletes c
     (flat_map (λ e, entryEvents ackVersion nackVersion nodeIP resourceNames typeURL
                       detail (h !! e.1) e.1 e.2) l) = 0%nat).
Proof.
  induction l as [|[c0 p0] l IH]; intros Hnd; [by split; [cbn; lia|]|].
  cbn in Hnd. apply NoDup_cons in Hnd as [Hc0 Hnd].
  destruct (IH Hnd) as [Hle Hzero]. cbn [flat_map]. rewrite countCompletes_app. cbn [fst snd].
  destruct (countCompletes_entryEvents ackVersion nackVersion nodeIP resourceNames
              typeURL detail (h !! c0) c c0 p0) as [Hle0 Hzero0].
  split.
  - destruct (decide (c0 = c)) as [->|Hne].
    + rewrite (Hzero Hc0). lia.
    + rewrite (Hzero0 Hne). lia.
  - cbn. intros [Hne Hnin]%not_elem_of_cons.
    rewrite Hzero0 by done. by rewrite Hzero.
Qed.

(** X16: over any sequence of acknowledgements, from any state, Complete is
    called at most once on any one completion; a completion that is not
    pending gets no call at all. *)
Theorem completes_at_most_once s (msgs : list AckMsg) c :
  (countCompletes c (eventsSince s (handleAll s msgs)) ≤ 1)%nat ∧
  (pendingCompletions s !! c = None →
   countCompletes c (eventsSince s (handleAll s msgs)) = 0%nat).
Proof.
  split.
  - revert s. induction msgs as [|a msgs IH]; intros s.
    { cbn. unfold eventsSince. rewrite drop_all. cbn. lia. }
    rewrite eventsSince_handleAll_cons, countCompletes_app.
    destruct (pendingCompletions (handle s a) !! c) as [p'|] eqn:Hp'.
    + assert (countCompletes c (eventsSince s (handle s a)) = 0%nat) as ->.
      { apply countCompletes_zero. intros e Hin. unfold handle in Hin, Hp'.
        apply HandleResourceVersionAck_completes in Hin as (p & Hp & Hout).
        rewrite HandleResourceVersionAck_pending, Hp in Hp'. cbn in Hp'.
        unfold entryKeep, entryOutcome in *.
        destruct (canceledObj (completions s !! c)); [done|].
        by destruct (ackPending _ _ _ _ _ _ p) as [p1 [e1|]]. }
      apply IH.
    + destruct (handleAll_not_pending _ msgs c Hp') as (_ & _ & Hev).
      rewrite (countCompletes_zero _ _ Hev). unfold handle.
      rewrite HandleResourceVersionAck_eventsSince.
      destruct (countCompletes_loop (msg_ackVersion a) (msg_nackVersion a) (msg_nodeIP a)
                  (msg_resourceNames a) (msg_typeURL a) (msg_detail a) (completions s) c
                  (map_to_list (pendingCompletions s))) as [Hle _];
        [apply NoDup_fst_map_to_list|]. lia.
  - intros Hnone. apply countCompletes_zero.
    by destruct (handleAll_not_pending s msgs c Hnone) as (_ & _ & Hev).
Qed.

(** ** What a change that waits registers *)

(** X17: a changed Upsert that waits registers, under the completion the
    wait group just made for the callback, an entry for the version the
    mutator returned and the type URL, in which exactly the nodes of
    [nodeIDs] (a node listed twice counts once) each await exactly
    [resourceName]; a changed Delete does the same with a nil set per
    node.  Neither calls the callback. *)
Theorem changed_and_waiting_registers s typeURL resourceName (resource : Resource)
    (nodeIDs : list string) (wg : WaitGroup) (callback : option Callback) rv s1 :
  restoring s = false →
  ((mutUpsert typeURL resourceName resource (mutator s)).1.1.2 = true →
   Upsert typeURL resourceName resource nodeIDs (Some wg) callback s = Ok (rv, s1) →
   ∃ p, pendingCompletions s1 !! nextCompletion s = Some p ∧
        pc_version p = (mutUpsert typeURL resourceName resource (mutator s)).1.1.1 ∧
        version s1 = pc_version p ∧ pc_typeURL p = typeURL ∧
        (∀ node, pc_remainingNodesResources p !! node =
                 if decide (node ∈ nodeIDs) then Some (Some {[resourceName]}) else None) ∧
        completions s1 !! nextCompletion s =
          Some {| c_wg := wg; c_callback := callback;
                  c_canceled := false; c_result := None |} ∧
        nextCompletion s1 = Pos.succ (nextCompletion s) ∧
        eventsSince s s1 = []) ∧
  ((mutDelete typeURL resourceName (mutator s)).1.1.2 = true →
   Delete typeURL resourceName nodeIDs (Some wg) callback s = Ok (rv, s1) →
   ∃ p, pendingCompletions s1 !! nextCompletion s = Some p ∧
        pc_version p = (mutDelete typeURL resourceName (mutator s)).1.1.1 ∧
        version s1 = pc_version p ∧ pc_typeURL p = typeURL ∧
        (∀ node, pc_remainingNodesResources p !! node =
                 if decide (node ∈ nodeIDs) then Some None else None) ∧
        completions s1 !! nextCompletion s =
          Some {| c_wg := wg; c_callback := callback;
                  c_canceled := false; c_result := None |} ∧
        nextCompletion s1 = Pos.succ (nextCompletion s) ∧
        eventsSince s s1 = []).
Proof.
  intros Hr. split.
  - unfold Upsert. rewrite Hr.
    destruct (mutUpsert _ _ _ _) as [[[v updated] revert] st]. cbn.
    intros ->. cbn. case_bool_decide; [done|]. intros [= _ <-]. cbn.
    eexists. rewrite !lookup_insert_eq. split; [done|]. cbn.
    do 3 (split; [done|]). split.
    + intros node. by rewrite foldl_insert_lookup, lookup_empty.
    + do 2 (split; [done|]). by apply eventsSince_same.
  - unfold Delete. rewrite Hr.
    destruct (mutDelete _ _ _) as [[[v updated] revert] st]. cbn.
    intros ->. cbn. case_bool_decide; [done|]. intros [= _ <-]. cbn.
    eexists. rewrite !lookup_insert_eq. split; [done|]. cbn.
    do 3 (split; [done|]). split.
    + intros node. by rewrite foldl_insert_lookup, lookup_empty.
    + do 2 (split; [done|]). by apply eventsSince_same.
Qed.

End Further.

(** * The further properties on the scenario *)

Lemma ack_changes_only_its_node_witness :
  ackedVersions (handle demo1 (demoAck "10.0.0.1")) !! "10.0.0.2"
    = ackedVersions demo1 !! "10.0.0.2".
Proof.
  destruct (ack_changes_only_its_node demo1 (demoAck "10.0.0.1")) as (_ & _ & _ & _ & H & _).
  apply H. discriminate.
Defined.

Lemma unrelated_ack_keeps_entry_witness :
  pendingCompletions (handle demo1 demoOtherAck) !! 1%positive = Some demoPending1 ∧
  completions (handle demo1 demoOtherAck) !! 1%positive = completions demo1 !! 1%positive ∧
  ∀ e, EvComplete 1%positive e ∉ eventsSince demo1 (handle demo1 demoOtherAck).
Proof.
  apply (unrelated_ack_keeps_entry demo1 demoOtherAck 1%positive demoPending1);
    [reflexivity|reflexivity|left; discriminate].
Defined.

Lemma unchanged_and_acked_is_silent_witness :
  ∃ rv s',
    Upsert "cluster" "bar/foo" "X" demoNodes (Some demoWG) (Some demoCallback) demo3
      = Ok (rv, s') ∧
    pendingCompletions s' = pendingCompletions demo3 ∧
    completions s' = completions demo3 ∧ nextCompletion s' = nextCompletion demo3 ∧
    eventsSince demo3 s' = [].
Proof.
  apply (proj1 (unchanged_and_acked_is_silent demo3 "cluster" "bar/foo" "X" demoNodes
                  demoWG (Some demoCallback) eq_refl)); [reflexivity|].
  intros n Hn. exists 5. split; [|apply N.leb_le; reflexivity].
  apply elem_of_cons in Hn as [->|Hn]; [reflexivity|].
  apply list_elem_of_singleton in Hn as ->. reflexivity.
Defined.

Lemma unchanged_and_unacked_waits_witness :
  version (stateOf demoUpsertAgain) = 5 ∧
  eventsSince demo1 (stateOf demoUpsertAgain) = [].
Proof.
  assert (Upsert "cluster" "bar/foo" "X" demoNodes (Some demoWG) (Some demoCallback) demo1
          = Ok (revertOf demoUpsertAgain, stateOf demoUpsertAgain)) as Hup by reflexivity.
  assert ((mutUpsert "cluster" "bar/foo" "X" (mutator demo1)).1.1.2 = false) as Hupd
    by reflexivity.
  assert (ackedVersions demo1 !! "10.0.0.1" = None) as Hnone by reflexivity.
  destruct (unchanged_and_unacked_waits demo1 "cluster" "bar/foo" "X" demoNodes demoWG
              (Some demoCallback) "10.0.0.1" (revertOf demoUpsertAgain)
              (stateOf demoUpsertAgain) eq_refl Hupd (list_elem_of_here _ _)
              (or_introl Hnone) Hup) as (Hv & _ & _ & Hev & _).
  split; [exact Hv|exact Hev].
Defined.

Lemma Delete_revert_any_ack_witness :
  let revert := cacheRestore ("t", "r") (Some "X") in
  let s2 := stateOf demoDelete in
  let s3 := revertOf demoDelete (Some 9%positive) s2 in
  mutator s3 = (revert (mutator s2)).2 ∧
  version s3 = (revert (mutator s2)).1.1 ∧
  pendingCompletions s3 =
    <[9%positive := {| pc_version := (revert (mutator s2)).1.1; pc_typeURL := "t";
                       pc_remainingNodesResources :=
                         gset_to_gmap None (list_to_set ["n1"; "n2"]) |}]>
      (pendingCompletions s2) ∧
  ackedVersions s3 = ackedVersions s2 ∧ restoring s3 = restoring s2 ∧
  completions s3 = completions s2 ∧ nextCompletion s3 = nextCompletion s2 ∧
  trace s3 = trace s2.
Proof.
  assert (mutDelete "t" "r" (mutator demoFull) =
          ((6, true, Some (cacheRestore ("t", "r") (Some "X"))),
           mutator (stateOf demoDelete))) as Hmut by reflexivity.
  assert (Delete "t" "r" ["n1"; "n2"] (Some demoWG) (Some demoCallback) demoFull
          = Ok (revertOf demoDelete, stateOf demoDelete)) as Hdel by reflexivity.
  exact (Delete_revert_any_ack demoFull "t" "r" ["n1"; "n2"] (Some demoWG)
           (Some demoCallback) 6 (cacheRestore ("t", "r") (Some "X"))
           (mutator (stateOf demoDelete)) (revertOf demoDelete) (stateOf demoDelete)
           Hmut Hdel 9%positive (stateOf demoDelete)).
Defined.

Lemma revert_without_completion_witness :
  version (revertOf demoUpsert None demo1) = 6 ∧
  pendingCompletions (revertOf demoUpsert None demo1) = pendingCompletions demo1.
Proof.
  assert (mutUpsert "cluster" "bar/foo" "X" (mutator demo0) =
          ((5, true, Some (cacheRestore ("cluster", "bar/foo") None)), mutator demo1)
          ∧ Upsert "cluster" "bar/foo" "X" demoNodes (Some demoWG) (Some demoCallback) demo0
            = Ok (revertOf demoUpsert, demo1)) as Hcall by (split; reflexivity).
  destruct (revert_without_completion demo0 "cluster" "bar/foo" "X" demoNodes
              (Some demoWG) (Some demoCallback) 5
              (Some (cacheRestore ("cluster", "bar/foo") None)) (mutator demo1)
              (revertOf demoUpsert) demo1 (or_introl Hcall) demo1)
    as (_ & Hv & Hp & _).
  split; [exact Hv|exact Hp].
Defined.

Lemma acked_by_all_then_UseCurrent_is_noop_witness :
  currentVersionAcked demoNodes
    (handleAll demo1 [demoAck "10.0.0.1"; demoOtherAck; demoAck "10.0.0.2"]) = true.
Proof.
  apply (acked_by_all_then_UseCurrent_is_noop demo1
           [demoAck "10.0.0.1"; demoOtherAck; demoAck "10.0.0.2"] demoNodes).
  intros n Hn. apply elem_of_cons in Hn as [->|Hn].
  - exists (demoAck "10.0.0.1"). split; [apply list_elem_of_here|].
    split; [reflexivity|apply N.leb_le; reflexivity].
  - apply list_elem_of_singleton in Hn as ->. exists (demoAck "10.0.0.2").
    split; [do 2 apply list_elem_of_further; apply list_elem_of_here|].
    split; [reflexivity|apply N.leb_le; reflexivity].
Defined.

Lemma DeleteNode_forgets_witness :
  ackedVersions demo3 !! "10.0.0.1" = Some 5 ∧
  ackedVersions (handle (DeleteNode "10.0.0.1" demo3) (demoOldAck "10.0.0.1")) !! "10.0.0.1"
    = Some 4 ∧
  currentVersionAcked demoNodes (DeleteNode "10.0.0.1" demo3) = false.
Proof.
  destruct (DeleteNode_forgets demo3 "10.0.0.1") as (_ & _ & _ & _ & Hack & Hcur).
  split; [reflexivity|]. split.
  - exact (Hack (demoOldAck "10.0.0.1") eq_refl).
  - exact (Hcur demoNodes (list_elem_of_here _ _)).
Defined.

Lemma Revert_of_noops_leaves_completions_witness :
  let s' := Revert [revertOf demoUpsertAgain; revertNothing] (Some demoWG) demo2 in
  pendingCompletions s' = pendingCompletions demo2 ∧
  N.pos (nextCompletion s') = N.pos (nextCompletion demo2) + 2.
Proof.
  destruct (Revert_of_noops_leaves_completions
              [revertOf demoUpsertAgain; revertNothing] demoWG demo2)
    as (_ & _ & Hp & _ & Hn & _).
  - intros f Hf completion s0. apply elem_of_cons in Hf as [->|Hf]; [reflexivity|].
    apply list_elem_of_singleton in Hf as ->. reflexivity.
  - split; [exact Hp|exact Hn].
Defined.


Lemma mutation_frame_witness :
  ackedVersions demo1 = ackedVersions demo0 ∧ restoring demo1 = restoring demo0 ∧
  version demo1 = 5.
Proof.
  assert (Upsert "cluster" "bar/foo" "X" demoNodes (Some demoWG) (Some demoCallback) demo0
          = Ok (revertOf demoUpsert, demo1)) as Hup by reflexivity.
  destruct (proj1 (mutation_frame demo0 "cluster" "bar/foo" "X" demoNodes (Some demoWG)
                     (Some demoCallback) (revertOf demoUpsert) demo1) Hup)
    as (Ha & Hr & Hv & _).
  split; [exact Ha|]. split; [exact Hr|exact Hv].
Defined.

Lemma completes_at_most_once_witness :
  countCompletes 9%positive
    (eventsSince demo1 (handleAll demo1 [demoAck "10.0.0.1"; demoAck "10.0.0.2"])) = 0%nat.
Proof.
  exact (proj2 (completes_at_most_once demo1 [demoAck "10.0.0.1"; demoAck "10.0.0.2"]
                  9%positive) eq_refl).
Defined.

Lemma changed_and_waiting_registers_witness :
  ∃ p, pendingCompletions demo1 !! 1%positive = Some p ∧
       pc_version p = 5 ∧ version demo1 = pc_version p ∧ pc_typeURL p = "cluster" ∧
       (∀ node, pc_remainingNodesResources p !! node =
                if decide (node ∈ demoNodes) then Some (Some {["bar/foo"]}) else None) ∧
       completions demo1 !! 1%positive =
         Some {| c_wg := demoWG; c_callback := Some demoCallback;
                 c_canceled := false; c_result := None |} ∧
       nextCompletion demo1 = 2%positive ∧
       eventsSince demo0 demo1 = [].
Proof.
  assert (Upsert "cluster" "bar/foo" "X" demoNodes (Some demoWG) (Some demoCallback) demo0
          = Ok (revertOf demoUpsert, demo1)) as Hup by reflexivity.
  exact (proj1 (changed_and_waiting_registers demo0 "cluster" "bar/foo" "X" demoNodes
                  demoWG (Some demoCallback) (revertOf demoUpsert) demo1 eq_refl)
           eq_refl Hup).
Defined.
